(** * A shallow embedding of the [@oxi/schema] combinator engine ([src/mod.ts])

    The development follows the source file top to bottom: the data that
    flows through [parse], the error model ([err]), the coercion layer
    ([as]), the primitive, composite and modifier schemas, and the
    transformation pipeline.  The theorems come after the definitions. *)

From Stdlib Require Import ZArith String Ascii List Lia DecimalString.
From stdpp Require Import base option list strings gmap.

Import ListNotations.
Local Open Scope string_scope.
Local Open Scope list_scope.

Set Default Proof Using "Type".
Set Warnings "-register-all".

(** ** Run-time data *)

(** A JavaScript [number].  The model keeps [NaN] and the integers; the
    schemas never do arithmetic on their input, they only test, compare and
    print it.  Fractions and the infinities are left out, and so is the
    limit of the format: the statements below are about [NaN] and
    integer-valued numbers, and say nothing of others. *)
Inductive number : Type :=
  | NaN
  | Num (z : Z).

(** What [parse(data: unknown)] can be handed and can hand back: the
    JSON-like values, [Date] objects, and the two wrappers the engine builds
    itself ([List] from [@oxi/list], [Option] from [@oxi/option]).

    - A [Date] is an object: [ref] is its identity ([new Date] yields a
      reference nobody else holds), [time] its time value, [None] for the
      invalid date.
    - An array is the list of its elements, [data[i]] being the [i]-th.
    - An object is an ordinary object, one that inherits from
      [Object.prototype] as object literals and the results of [JSON.parse]
      do, given by the list of its own properties in property order, the
      order [for ... in] enumerates them in.  [object_literal] below gives
      the property order of what an object literal evaluates to.
    - [VFunction name] is one of the built-in functions that every
      ordinary object inherits ([Object.prototype.toString], ...); no other
      function is part of the model. *)
Inductive Value : Type :=
  | VUndefined
  | VNull
  | VBool (b : bool)
  | VNum (n : number)
  | VStr (s : string)
  | VDate (ref : nat) (time : option Z)
  | VArr (items : list Value)
  | VObj (fields : list (string * Value))
  | VFunction (name : string)
  | VList (items : list Value)
  | VNone
  | VSome (v : Value).

(** [Result<T, E>] of [@oxi/result]. *)
Inductive Result (T E : Type) : Type :=
  | Ok (t : T)
  | Err (e : E).
Arguments Ok {T E} t.
Arguments Err {T E} e.

Definition isOk {T E} (r : Result T E) : bool :=
  match r with Ok _ => true | Err _ => false end.

Definition isErr {T E} (r : Result T E) : bool :=
  match r with Ok _ => false | Err _ => true end.

(** [interface ParseError]. *)
Record ParseError : Type := mkParseError {
  actual : string;
  expected : string;
  message : string;
  path : list string;
  value : Value;
}.

(** A JavaScript [Error], and a call that either throws one or returns. *)
Record Error : Type := mkError { error_message : string }.

Inductive Thrown (A : Type) : Type :=
  | Throw (e : Error)
  | Return (a : A).
Arguments Throw {A} e.
Arguments Return {A} a.

(** The values a [lit] schema or an enum member can hold:
    [string | number | boolean]. *)
Inductive primitive : Type :=
  | PStr (s : string)
  | PNum (n : number)
  | PBool (b : bool).

Definition primitive_value (p : primitive) : Value :=
  match p with
  | PStr s => VStr s
  | PNum n => VNum n
  | PBool b => VBool b
  end.

(** ** The host: built-ins and [@oxi/core] helpers whose text is not in
    [src/]

    [getTypeOf] comes from [@oxi/core]; the others are ECMAScript built-ins
    ([JSON_stringify v] is the text a template literal inserts for
    [JSON.stringify(v)], [Number] and [String_] are the conversions
    [Number(v)] and [String(v)]).  The two conversions turn an object
    into a primitive first, and throw a [TypeError] when neither its
    [toString] nor its [valueOf] gives one, as for [{ toString: null }]:
    [ToPrimitive_error v] is that error, and [Number v] and [String_ v] are
    what the calls return when there is none. *)
Class Host : Type := {
  getTypeOf : Value -> string;
  JSON_stringify : Value -> string;
  Number : Value -> number;
  String_ : Value -> string;
  ToPrimitive_error : Value -> option Error;
  toLowerCase : string -> string;
  Date_parse : string -> option Z;
}.

(** *** Type tests of [@oxi/core]

    [src/mod.ts] imports them; their text is not under [src/]. *)

(** Modelled from the spec: [isString] of [@oxi/core]; section 4.1 has
    [str] perform "a single runtime type check", and "a value of the correct
    native type always succeeds" (section 8). *)
Definition isString (data : Value) : bool :=
  match data with VStr _ => true | _ => false end.

(** Modelled from the spec: [isNumber] of [@oxi/core], as [isString]; every
    value of the native type passes, [NaN] included. *)
Definition isNumber (data : Value) : bool :=
  match data with VNum _ => true | _ => false end.

(** Modelled from the spec: [isBoolean] of [@oxi/core], as [isString]. *)
Definition isBoolean (data : Value) : bool :=
  match data with VBool _ => true | _ => false end.

(** Modelled from the spec: [isArray] of [@oxi/core]; section 4.3 has
    [list] and [tuple] reject "non-array input". *)
Definition isArray (data : Value) : bool :=
  match data with VArr _ => true | _ => false end.

(** Modelled from the spec: [isPlainObject] of [@oxi/core]; section 4.3 has
    [object] and [record] reject "non-plain-object input", and the tests
    expect an array to be rejected. *)
Definition isPlainObject (data : Value) : bool :=
  match data with VObj _ => true | _ => false end.

(** Modelled from the spec: [isNil] of [@oxi/core]; section 4.5 reads "if
    the input is nil (absent/null)", and the tests expect [opt] to accept
    both [undefined] and [null]. *)
Definition isNil (data : Value) : bool :=
  match data with VUndefined | VNull => true | _ => false end.

(** Modelled from the spec: [isDate] of [@oxi/core], which [src/] only
    imports.  Section 4.1 has [date] reject "invalid date values such as an
    unparsable date string turned into an invalid date instant", and the test
    "Schema.date (default error)" expects
    [date().parse(new Date("invalid date"))] to fail: a [Date] whose time
    value is not [NaN]. *)
Definition isDate (data : Value) : bool :=
  match data with VDate _ (Some _) => true | _ => false end.

(** *** Built-ins with a fixed meaning on the model *)

(** [Boolean(data)]. *)
Definition Boolean (data : Value) : bool :=
  match data with
  | VUndefined | VNull => false
  | VBool b => b
  | VNum NaN => false
  | VNum (Num z) => negb (Z.eqb z 0)
  | VStr s => negb (String.eqb s "")
  | _ => true
  end.

(** [i.toString()] for a loop index. *)
Definition toString (i : nat) : string :=
  NilEmpty.string_of_uint (Nat.to_uint i).

(** [data === value] against a primitive: same type and same value, and
    [NaN] differs from itself. *)
Definition strict_equals (data : Value) (p : primitive) : bool :=
  match data, p with
  | VStr a, PStr b => String.eqb a b
  | VBool a, PBool b => Bool.eqb a b
  | VNum (Num a), PNum (Num b) => Z.eqb a b
  | _, _ => false
  end.

(** The comparison of [Array.prototype.includes] (SameValueZero) against a
    primitive: as [===], except that [NaN] equals itself. *)
Definition same_value_zero (data : Value) (p : primitive) : bool :=
  match data, p with
  | VNum NaN, PNum NaN => true
  | _, _ => strict_equals data p
  end.

Definition includes (values : list primitive) (data : Value) : bool :=
  existsb (same_value_zero data) values.

(** [array.join(sep)] on strings. *)
Fixpoint join (sep : string) (parts : list string) : string :=
  match parts with
  | [] => ""
  | [p] => p
  | p :: rest => p ++ sep ++ join sep rest
  end.

(** The own property [key] of an object, if it has one. *)
Fixpoint lookup_field (fields : list (string * Value)) (key : string)
  : option Value :=
  match fields with
  | [] => None
  | (k, v) :: rest => if String.eqb k key then Some v else lookup_field rest key
  end.

(** The properties of [Object.prototype]: its functions, the constructor
    [Object], and the accessor [__proto__], which on an ordinary object
    returns [Object.prototype] itself, an object without enumerable
    properties. *)
Definition Object_prototype (key : string) : option Value :=
  if existsb (String.eqb key)
       ["hasOwnProperty"; "isPrototypeOf"; "propertyIsEnumerable";
        "toLocaleString"; "toString"; "valueOf"; "__defineGetter__";
        "__defineSetter__"; "__lookupGetter__"; "__lookupSetter__"]
  then Some (VFunction key)
  else if String.eqb key "constructor" then Some (VFunction "Object")
  else if String.eqb key "__proto__" then Some (VObj [])
  else None.

(** [data[key]] on an object: the own property, else the inherited one,
    else [undefined]. *)
Definition get (data : Value) (key : string) : Value :=
  match data with
  | VObj fields =>
      match lookup_field fields key with
      | Some v => v
      | None =>
          match Object_prototype key with
          | Some v => v
          | None => VUndefined
          end
      end
  | _ => VUndefined
  end.

(** [obj[key] = v]: overwrite the property in place, or add it last. *)
Fixpoint set (obj : list (string * Value)) (key : string) (v : Value)
  : list (string * Value) :=
  match obj with
  | [] => [(key, v)]
  | (k, old) :: rest =>
      if String.eqb k key then (k, v) :: rest else (k, old) :: set rest key v
  end.

(** *** Property order

    An object keeps its properties in property order: the keys that are
    array indices first, in ascending numeric order, then the other keys
    in the order they were created.  That is the order of [for ... in],
    whatever order a literal was written in. *)


Section Object_literal.
Context {A : Type}.





End Object_literal.

(** The elements of an array, and [data.length]. *)
Definition elements (data : Value) : list Value :=
  match data with
  | VArr items => items
  | _ => []
  end.

(** The keys [for (const k in data)] visits. *)
Definition keys_of (data : Value) : list string :=
  match data with
  | VObj fields => map fst fields
  | _ => []
  end.

(** The time value of a date; [new Date(d)] copies it. *)
Definition time_value (data : Value) : option Z :=
  match data with
  | VDate _ time => time
  | _ => None
  end.

(** The time value [new Date(n)] gets from a number (TimeClip).  The
    numbers of the model are whole, so there is no fraction to drop. *)
Definition time_clip (n : number) : option Z :=
  match n with
  | NaN => None
  | Num z => if Z.leb (Z.abs z) 8640000000000000 then Some z else None
  end.

(** ** The heap

    Two things in [src/mod.ts] are not pure: [new Date(...)] makes a new
    object, and [oneOf] and [lit] assign to their captured [message]
    parameter ([message ??= ...]).  [next_ref] is the next unused object
    reference; [cells] holds, for every closure that has run such an
    assignment, the string now stored in its [message] variable.  A closure
    is named by the [cell] its schema was built with. *)
Record Heap : Type := mkHeap {
  next_ref : nat;
  cells : gmap nat string;
}.

(** A computation on the heap, which returns or throws; what it did to the
    heap before it threw stays done. *)
Definition M (A : Type) : Type := Heap -> Thrown A * Heap.

Definition ret {A} (a : A) : M A := fun h => (Return a, h).

Definition throw {A} (e : Error) : M A := fun h => (Throw e, h).

Definition bind {A B} (m : M A) (k : A -> M B) : M B :=
  fun h =>
    match m h with
    | (Return a, h') => k a h'
    | (Throw e, h') => (Throw e, h')
    end.

Notation "'let*' x := m 'in' k" := (bind m (fun x => k))
  (at level 10, x name, m at level 100, k at level 200).

(** [new Date(t)]: a date object under a reference that was free. *)
Definition new_Date (time : option Z) : M Value :=
  fun h => (Return (VDate (next_ref h) time),
            {| next_ref := S (next_ref h); cells := cells h |}).

(** [message ??= fallback] inside the closure [cell] whose parameter was
    bound to [message] when the schema was built: the variable keeps a
    non-nullish value, otherwise it takes [fallback] and stays that way.
    Returns the variable's value after the assignment. *)
Definition nullish_assign (cell : nat) (message : option string)
    (fallback : string) : M string :=
  fun h =>
    match message with
    | Some m => (Return m, h)
    | None =>
        match cells h !! cell with
        | Some m => (Return m, h)
        | None => (Return fallback,
                   {| next_ref := next_ref h;
                      cells := <[cell := fallback]> (cells h) |})
        end
    end.

(** ** Schemas *)

(** [type Pipe<T> = (data: T) => Result<T, string>]. *)
Definition Pipe : Type := Value -> Result Value string.

(** [interface Schema<T>], closed over the constructors of [src/mod.ts]:
    [SAny] is [any()], [SStr message] is [str(message)], [SList schema
    message] is [list(schema, message)], and so on.  Each constructor keeps
    the arguments its closure captures; [parse] and [type_of] below are the
    [parse] method and the [type] property.

    [union] and [tuple] take a non-empty array ([readonly [A, ...B]]),
    given here as its head and its tail.  [SEnum] holds [Object.values(e)].
    [SOneOf] and [SLit] carry the [cell] that names their closure (see
    [Heap]).  [SPre] is the private [pre(schema, hook)]. *)
Inductive Schema : Type :=
  | SAny
  | SStr (message : option string)
  | SNum (message : option string)
  | SBool (message : option string)
  | SDate (message : option string)
  | SList (schema : Schema) (message : option string)
  | SObj (props : list (string * Schema)) (message : option string)
  | SRecord (key value : Schema) (message : option string)
  | SUnion (first : Schema) (rest : list Schema) (message : option string)
  | STuple (first : Schema) (rest : list Schema) (message : option string)
  | SEnum (values : list primitive) (message : option string)
  | SOneOf (values : list string) (message : option string) (cell : nat)
  | SLit (value : primitive) (message : option string) (cell : nat)
  | SOpt (schema : Schema)
  | SDef (schema : Schema) (defaultValue : Value) (message : option string)
  | SPipe (schema : Schema) (pipeline : list Pipe)
  | SMap (schema : Schema) (mapper : Pipe)
  | SPre (schema : Schema) (hook : Value -> M Value).

(** The [type] property.  [map] copies it from its argument, and so does
    [pre], which spreads the schema it wraps. *)
Fixpoint type_of (s : Schema) : string :=
  match s with
  | SAny => "unknown"
  | SStr _ => "string"
  | SNum _ => "number"
  | SBool _ => "boolean"
  | SDate _ => "date"
  | SList _ _ => "list"
  | SObj _ _ => "object"
  | SRecord _ _ _ => "record"
  | SUnion _ _ _ => "union"
  | STuple _ _ _ => "tuple"
  | SEnum _ _ => "enum"
  | SOneOf _ _ _ => "oneOf"
  | SLit _ _ _ => "literal"
  | SOpt _ => "optional"
  | SDef _ _ _ => "default"
  | SPipe _ _ => "pipe"
  | SMap schema _ => type_of schema
  | SPre schema _ => type_of schema
  end.

(** [{ ...err, path: [segment, ...err.path] }]. *)
Definition with_segment (segment : string) (e : ParseError) : ParseError :=
  {| actual := actual e;
     expected := expected e;
     message := message e;
     path := segment :: path e;
     value := value e |}.

(** The double quote character, as a string. *)
Definition quote : string := String (ascii_of_nat 34) EmptyString.

Definition Parsed : Type := Result Value ParseError.
Definition Parser : Type := Value -> M Parsed.

(** A call of [parse] returned a success, or returned an error; it did
    neither when it threw. *)
Definition accepted (r : Thrown Parsed) : bool :=
  match r with
  | Return (Ok _) => true
  | _ => false
  end.

Definition rejected (r : Thrown Parsed) : bool :=
  match r with
  | Return (Err _) => true
  | _ => false
  end.

Section Engine.
Context {host : Host}.

(** *** [err] *)

(** [message || `Expected ${expected}, but got ${actual}`]: the default
    text replaces a missing message and an empty one alike. *)
Definition err (expected : string) (value : Value) (message : option string)
  : ParseError :=
  let actual := getTypeOf value in
  {| actual := actual;
     expected := expected;
     message :=
       match message with
       | Some m =>
           if String.eqb m "" then "Expected " ++ expected ++ ", but got " ++ actual
           else m
       | None => "Expected " ++ expected ++ ", but got " ++ actual
       end;
     path := [];
     value := value |}.

(** *** The casts behind [as] *)

(** What [Number(data)], [String(data)] and [obj[data] = ...] throw: only
    an object is turned into a primitive first. *)
Definition cannot_convert (data : Value) : option Error :=
  match data with
  | VUndefined | VNull | VBool _ | VNum _ | VStr _ => None
  | _ => ToPrimitive_error data
  end.

Definition tryNum (data : Value) : M Value :=
  match cannot_convert data with
  | Some e => throw e
  | None => ret (VNum (Number data))
  end.

Definition tryStr (data : Value) : M Value :=
  match cannot_convert data with
  | Some e => throw e
  | None => ret (VStr (String_ data))
  end.

Definition tryBool (data : Value) : M Value :=
  match data with
  | VStr s =>
      ret (VBool (existsb (String.eqb (toLowerCase s)) ["true"; "1"; "yes"; "on"]))
  | _ => ret (VBool (Boolean data))
  end.

Definition tryDate (data : Value) : M Value :=
  match data with
  | VStr s => new_Date (Date_parse s)
  | VNum n => new_Date (time_clip n)
  | _ => ret data
  end.

(** *** The loops of the composite schemas

    Each takes the [parse] methods of the children it runs, so that it can
    be stated once and reasoned about without looking into the children. *)

(** [list]: [for (let i = 0; i < data.length; i++)], entered with [i]
    elements already stored in [arr]. *)
Fixpoint list_loop (parse : Parser) (i : nat) (data : list Value)
    (arr : list Value) : M Parsed :=
  match data with
  | [] => ret (Ok (VList arr))
  | d :: data' =>
      let* result := parse d in
      match result with
      | Err e => ret (Err (with_segment (toString i) e))
      | Ok v => list_loop parse (S i) data' (arr ++ [v])
      end
  end.

(** [tuple]: [for (let i = 0; i < schemas.length; i++)], reading
    [data[i]]. *)
Fixpoint tuple_loop (parsers : list Parser) (i : nat) (data : list Value)
    (arr : list Value) : M Parsed :=
  match parsers with
  | [] => ret (Ok (VArr arr))
  | parse :: parsers' =>
      let* result := parse (nth i data VUndefined) in
      match result with
      | Err e => ret (Err (with_segment (toString i) e))
      | Ok v => tuple_loop parsers' (S i) data (arr ++ [v])
      end
  end.

(** [obj]: [for (const key in props)], [props] being in property order.
    The result is built in an object without prototype
    ([Object.create(null)]), in which every assignment [obj[key] = ...]
    creates or updates an own property. *)
Fixpoint obj_loop (props : list (string * Parser)) (data : Value)
    (obj : list (string * Value)) : M Parsed :=
  match props with
  | [] => ret (Ok (VObj obj))
  | (key, parse) :: props' =>
      let* result := parse (get data key) in
      match result with
      | Err e => ret (Err (with_segment key e))
      | Ok v => obj_loop props' data (set obj key v)
      end
  end.

(** The property name [obj[k] = ...] uses for a validated key; the
    assignment throws when [k] is an object that cannot be converted. *)
Definition property_key (k : Value) : string :=
  match k with
  | VStr s => s
  | _ => String_ k
  end.

(** [record]: [for (const k in data)], [keys] being what is left to
    visit. *)
Fixpoint record_loop (key value : Parser) (keys : list string) (data : Value)
    (obj : list (string * Value)) : M Parsed :=
  match keys with
  | [] => ret (Ok (VObj obj))
  | k :: keys' =>
      let* keyResult := key (VStr k) in
      match keyResult with
      | Err e => ret (Err (with_segment k e))
      | Ok k' =>
          let* valueResult := value (get data k) in
          match valueResult with
          | Err e => ret (Err (with_segment k e))
          | Ok v =>
              match cannot_convert k' with
              | Some e => throw e
              | None =>
                  record_loop key value keys' data (set obj (property_key k') v)
              end
          end
      end
  end.

(** [union]: [for (const schema of schemas)]; [None] when the loop runs
    to its end. *)
Fixpoint union_loop (parsers : list Parser) (data : Value) : M (option Parsed) :=
  match parsers with
  | [] => ret None
  | parse :: parsers' =>
      let* result := parse data in
      if isOk result then ret (Some result) else union_loop parsers' data
  end.

(** [pipe]: [for (const pipe of pipeline)], inside [andThen]. *)
Fixpoint pipe_loop (pipeline : list Pipe) (acc : Value) : Parsed :=
  match pipeline with
  | [] => Ok acc
  | pipe :: pipeline' =>
      match pipe acc with
      | Err message => Err (err "pipe" acc (Some message))
      | Ok v => pipe_loop pipeline' v
      end
  end.

(** *** [parse] *)

Fixpoint parse (s : Schema) (data : Value) {struct s} : M Parsed :=
  match s with
  | SAny => ret (Ok data)
  | SStr message =>
      if isString data then ret (Ok data)
      else ret (Err (err "string" data message))
  | SNum message =>
      if isNumber data then ret (Ok data)
      else ret (Err (err "number" data message))
  | SBool message =>
      if isBoolean data then ret (Ok data)
      else ret (Err (err "boolean" data message))
  | SDate message =>
      if isDate data then
        let* d := new_Date (time_value data) in ret (Ok d)
      else ret (Err (err "date" data message))
  | SList schema message =>
      if negb (isArray data) then ret (Err (err "list" data message))
      else list_loop (parse schema) 0 (elements data) []
  | SObj props message =>
      if negb (isPlainObject data) then ret (Err (err "object" data message))
      else obj_loop (map (fun p => (fst p, parse (snd p))) props) data []
  | SRecord key value message =>
      if negb (isPlainObject data) then ret (Err (err "record" data message))
      else record_loop (parse key) (parse value) (keys_of data) data []
  | SUnion first rest message =>
      let* found := union_loop (parse first :: map parse rest) data in
      match found with
      | Some result => ret result
      | None =>
          ret (Err (err (join " | " (map type_of (first :: rest))) data message))
      end
  | STuple first rest message =>
      if negb (isArray data)
         || negb (Nat.eqb (length (elements data)) (length (first :: rest)))
      then ret (Err (err "tuple" data message))
      else tuple_loop (parse first :: map parse rest) 0 (elements data) []
  | SEnum values message =>
      if includes values data then ret (Ok data)
      else ret (Err (err "enum" data message))
  | SOneOf values message cell =>
      if includes (map PStr values) data then ret (Ok data)
      else
        let* message' := nullish_assign cell message
          ("Expected one of " ++ JSON_stringify (VArr (map VStr values))
             ++ ", but got " ++ JSON_stringify data) in
        ret (Err (err "oneOf" data (Some message')))
  | SLit value message cell =>
      if strict_equals data value then ret (Ok (primitive_value value))
      else
        let* message' := nullish_assign cell message
          ("Expected " ++ JSON_stringify (primitive_value value)
             ++ ", but got " ++ JSON_stringify data) in
        ret (Err (err "literal" data (Some message')))
  | SOpt schema =>
      if isNil data then ret (Ok VNone)
      else
        let* result := parse schema data in
        ret (match result with Ok v => Ok (VSome v) | Err e => Err e end)
  | SDef schema defaultValue message =>
      if isNil data then ret (Ok defaultValue)
      else parse schema data
  | SPipe schema pipeline =>
      let* result := parse schema data in
      ret (match result with
           | Ok v => pipe_loop pipeline v
           | Err e => Err e
           end)
  | SMap schema mapper =>
      let* result := parse schema data in
      ret (match result with
           | Ok v =>
               match mapper v with
               | Ok u => Ok u
               | Err message => Err (err (type_of schema) v (Some message))
               end
           | Err e => Err e
           end)
  | SPre schema hook =>
      let* data' := hook data in
      parse schema data'
  end.

(** *** [as] *)

(** [pre(schema, hook)]: [{ ...schema, parse(data) { return
    schema.parse(hook(data)) } }]. *)
Definition pre (schema : Schema) (hook : Value -> M Value) : Schema :=
  SPre schema hook.

(** [as(schema)]: the [switch] on [schema.type].  It runs when the schema
    is built, and its [default] branch throws. *)
Definition as_ (schema : Schema) : Thrown Schema :=
  let type := type_of schema in
  if String.eqb type "number" then Return (pre schema tryNum)
  else if String.eqb type "string" then Return (pre schema tryStr)
  else if String.eqb type "boolean" then Return (pre schema tryBool)
  else if String.eqb type "date" then Return (pre schema tryDate)
  else Throw (mkError ("Cannot coerce " ++ quote ++ type ++ quote
                         ++ " to a primitive type")).

End Engine.

(** *** [enum] *)

(** [interface Enum]: an object whose property values are strings or
    numbers. *)
Definition Enum : Type := list (string * primitive).

(** [Object.values(e)]. *)
Definition Object_values (e : Enum) : list primitive := map snd e.

Definition _enum (e : Enum) (message : option string) : Schema :=
  SEnum (Object_values e) message.

(** The object TypeScript emits for a numeric [enum E { n0, n1, ... }]:
    one statement [E[E["n"] = i] = "n"] per member, which stores the member's
    number under its name and its name under its number.  [i] is the number
    of the first member of [names]. *)
Fixpoint numeric_enum (i : nat) (names : list string) : Enum :=
  match names with
  | [] => []
  | n :: names' =>
      (n, PNum (Num (Z.of_nat i))) :: (toString i, PStr n)
        :: numeric_enum (S i) names'
  end.

(** *** [partial] *)

(** Modelled from the spec: [partial], which the tests call but [src/mod.ts]
    does not contain.  Section 4.4: "builds a new object schema where every
    property schema is wrapped to also accept absence (equivalent to applying
    the optional modifier to each child)"; section 9 has it defined over
    object schemas only, any other schema being a configuration fault. *)
Definition partial (schema : Schema) : Thrown Schema :=
  match schema with
  | SObj props _ => Return (SObj (map (fun p => (fst p, SOpt (snd p))) props) None)
  | _ => Throw (mkError "partial: not an object schema")
  end.

(** ** Vocabulary of the statements

    [parse] threads the heap, so "every element passes" and "every earlier
    alternative fails" are runs: each call starts in the heap the previous
    one left. *)
Section Runs.
Context {host : Host}.


(** The property schemas accept [data[key]] for their keys in turn; [out]
    pairs each key with what its schema returned. *)
Inductive accepts_props (data : Value)
  : list (string * Schema) -> Heap -> list (string * Value) -> Heap -> Prop :=
  | accepts_props_nil h : accepts_props data [] h [] h
  | accepts_props_cons key schema props h v h1 out h' :
      parse schema (get data key) h = (Return (Ok v), h1) ->
      accepts_props data props h1 out h' ->
      accepts_props data ((key, schema) :: props) h ((key, v) :: out) h'.



(** The steps of a pipeline all succeed, taking [acc] to [out]. *)
Inductive steps_pass : list Pipe -> Value -> Value -> Prop :=
  | steps_pass_nil acc : steps_pass [] acc acc
  | steps_pass_cons (pipe : Pipe) pipeline acc v out :
      pipe acc = Ok v ->
      steps_pass pipeline v out ->
      steps_pass (pipe :: pipeline) acc out.

(** The object [obj] after the assignments [obj[key] = v] for the pairs of
    [out], in order. *)
Definition assign_all (obj out : list (string * Value)) : list (string * Value) :=
  fold_left (fun o kv => set o (fst kv) (snd kv)) out obj.

(** [segments], read from the left, descends from [(schema, data)] through
    one composite schema per segment: an index into a list or tuple, a key
    of an object or record.  Modifiers, pipelines and casts are stepped
    through without a segment. *)
Inductive descends : Schema -> Value -> list string -> Prop :=
  | descends_here schema data : descends schema data []
  | descends_list schema message data i d segments :
      elements data !! i = Some d ->
      descends schema d segments ->
      descends (SList schema message) data (toString i :: segments)
  | descends_tuple first rest message data i schema segments :
      (first :: rest) !! i = Some schema ->
      descends schema (nth i (elements data) VUndefined) segments ->
      descends (STuple first rest message) data (toString i :: segments)
  | descends_obj props message data key schema segments :
      In (key, schema) props ->
      descends schema (get data key) segments ->
      descends (SObj props message) data (key :: segments)
  | descends_record_key key value message data k segments :
      In k (keys_of data) ->
      descends key (VStr k) segments ->
      descends (SRecord key value message) data (k :: segments)
  | descends_record_value key value message data k segments :
      In k (keys_of data) ->
      descends value (get data k) segments ->
      descends (SRecord key value message) data (k :: segments)
  | descends_opt schema data segments :
      descends schema data segments ->
      descends (SOpt schema) data segments
  | descends_def schema defaultValue message data segments :
      descends schema data segments ->
      descends (SDef schema defaultValue message) data segments
  | descends_pipe schema pipeline data segments :
      descends schema data segments ->
      descends (SPipe schema pipeline) data segments
  | descends_map schema mapper data segments :
      descends schema data segments ->
      descends (SMap schema mapper) data segments
  | descends_pre schema hook data h data' h' segments :
      hook data h = (Return data', h') ->
      descends schema data' segments ->
      descends (SPre schema hook) data segments.

(** The schemas at which an error can only start: the primitives, the
    membership tests and [union]. *)
Definition originates (s : Schema) : bool :=
  match s with
  | SStr _ | SNum _ | SBool _ | SDate _
  | SEnum _ _ | SOneOf _ _ _ | SLit _ _ _
  | SUnion _ _ _ => true
  | _ => false
  end.

(** [obj] holds the same object as [ref]: the same reference. *)
Definition same_object (a b : Value) : bool :=
  match a, b with
  | VDate ra _, VDate rb _ => Nat.eqb ra rb
  | _, _ => false
  end.

(** The date object [d] exists in heap [h]: its reference was handed out
    before. *)
Definition allocated (h : Heap) (d : Value) : Prop :=
  match d with
  | VDate ref _ => ref < next_ref h
  | _ => True
  end.


(** [data] is the value of one of the own properties of [e]. *)
Definition member_of (e : Enum) (data : Value) : Prop :=
  exists key member, In (key, member) e /\ data = primitive_value member.

End Runs.

(** ** More of [src/mod.ts]: the object algebra and the step library *)

(** *** [extend] *)

(** [s.props].  Only an object schema has the property; [pre] copies it with
    the rest of the schema it spreads.  Where it is [undefined],
    [Object.assign] below has nothing to copy. *)
Fixpoint props_of (s : Schema) : list (string * Schema) :=
  match s with
  | SObj props _ => props
  | SPre schema _ => props_of schema
  | _ => []
  end.

(** [props[key]]. *)
Fixpoint prop (props : list (string * Schema)) (key : string) : option Schema :=
  match props with
  | [] => None
  | (k, schema) :: rest => if String.eqb k key then Some schema else prop rest key
  end.

(** [target[key] = schema] on a property map: overwrite in place, or add
    last. *)
Fixpoint assign (target : list (string * Schema)) (key : string) (schema : Schema)
  : list (string * Schema) :=
  match target with
  | [] => [(key, schema)]
  | (k, old) :: rest =>
      if String.eqb k key then (k, schema) :: rest
      else (k, old) :: assign rest key schema
  end.

(** [Object.assign(target, ...sources)]: the own properties of each source,
    in order, assigned to the target. *)
Definition Object_assign (target : list (string * Schema))
    (sources : list (list (string * Schema))) : list (string * Schema) :=
  fold_left
    (fun t source => fold_left (fun t' p => assign t' (fst p) (snd p)) source t)
    sources target.

(** [extend([first, ...rest], message)]. *)
Definition extend (first : Schema) (rest : list Schema) (message : option string)
  : Schema :=
  SObj (Object_assign [] (map props_of (first :: rest))) message.

(** *** Numbers *)

(** [a < b] on numbers: false as soon as one side is [NaN]. *)
Definition number_lt (a b : number) : bool :=
  match a, b with
  | Num x, Num y => Z.ltb x y
  | _, _ => false
  end.

(** [a <= b]. *)
Definition number_le (a b : number) : bool :=
  match a, b with
  | Num x, Num y => Z.leb x y
  | _, _ => false
  end.

(** [Math.max(a, b)] and [Math.min(a, b)]: [NaN] as soon as one argument
    is. *)
Definition Math_max (a b : number) : number :=
  match a, b with
  | Num x, Num y => Num (Z.max x y)
  | _, _ => NaN
  end.

Definition Math_min (a b : number) : number :=
  match a, b with
  | Num x, Num y => Num (Z.min x y)
  | _, _ => NaN
  end.

(** The time value of a [Date] as a number. *)
Definition time_number (time : option Z) : number :=
  match time with
  | Some t => Num t
  | None => NaN
  end.

(** [message ?? fallback]: only a missing message is replaced, an empty one
    is kept. *)
Definition nullish (message : option string) (fallback : string) : string :=
  match message with
  | Some m => m
  | None => fallback
  end.

(** [Date.prototype.toISOString] on a valid time value; the host prints
    it. *)
Class Calendar : Type := {
  toISOString : Z -> string;
}.

(** *** The steps on numbers and dates

    The module keeps the names of [src/mod.ts] ([min], [max], ...) apart
    from those of the standard library. *)
Module Steps.
Section Library.
Context {host : Host} {calendar : Calendar}.

(** The number a comparison or [Math.max] makes of its operand: a number is
    itself, a date is its time value, anything else goes through
    [Number]. *)
Definition numeric (data : Value) : number :=
  match data with
  | VNum n => n
  | VDate _ time => time_number time
  | _ => Number data
  end.

Definition min (min : number) (message : option string) : Pipe :=
  let msg :=
    nullish message ("Expected value to be at least " ++ String_ (VNum min)) in
  fun data =>
    if number_lt (numeric data) min then Err msg else Ok data.

Definition max (max : number) (message : option string) : Pipe :=
  let msg :=
    nullish message ("Expected value to be at most " ++ String_ (VNum max)) in
  fun data =>
    if number_lt max (numeric data) then Err msg else Ok data.

Definition clamp (min max : number) : Pipe :=
  fun data => Ok (VNum (Math_min (Math_max (numeric data) min) max)).

Definition positive (message : option string) : Pipe :=
  let msg := nullish message "Expected value to be positive" in
  min (Num 0) (Some msg).

Definition negative (message : option string) : Pipe :=
  let msg := nullish message "Expected value to be negative" in
  max (Num 0) (Some msg).

Definition range (min max : number) (message : option string) : Pipe :=
  fun data =>
    if number_lt (numeric data) min || number_lt max (numeric data) then
      Err (nullish message
             ("Expected value to be in range " ++ String_ (VNum min) ++ " - "
                ++ String_ (VNum max) ++ ", but got " ++ String_ data))
    else Ok data.

(** [date.toISOString()]: a [RangeError] on the invalid date. *)
Definition Date_toISOString (time : option Z) : Thrown string :=
  match time with
  | Some t => Return (toISOString t)
  | None => Throw (mkError "Invalid time value")
  end.

(** [before(date, message)], [date] being given by its time value.  The
    default message is built when the step is, and only when no message was
    passed. *)
Definition before (date : option Z) (message : option string) : Thrown Pipe :=
  match
    match message with
    | Some m => Return m
    | None =>
        match Date_toISOString date with
        | Return iso => Return ("Expected date to be before " ++ iso)%string
        | Throw e => Throw e
        end
    end
  with
  | Throw e => Throw e
  | Return msg =>
      Return (fun data =>
                if number_le (time_number date) (numeric data) then Err msg
                else Ok data)
  end.

Definition after (date : option Z) (message : option string) : Thrown Pipe :=
  match
    match message with
    | Some m => Return m
    | None =>
        match Date_toISOString date with
        | Return iso => Return ("Expected date to be after " ++ iso)%string
        | Throw e => Throw e
        end
    end
  with
  | Throw e => Throw e
  | Return msg =>
      Return (fun data =>
                if number_le (numeric data) (time_number date) then Err msg
                else Ok data)
  end.

Definition between (start end_ : option Z) (message : option string)
  : Thrown Pipe :=
  match
    match message with
    | Some m => Return m
    | None =>
        match Date_toISOString start with
        | Throw e => Throw e
        | Return iso_start =>
            match Date_toISOString end_ with
            | Throw e => Throw e
            | Return iso_end =>
                Return ("Expected date to be between " ++ iso_start ++ " and "
                          ++ iso_end)%string
            end
        end
    end
  with
  | Throw e => Throw e
  | Return msg =>
      Return (fun data =>
                if number_lt (numeric data) (time_number start)
                   || number_lt (time_number end_) (numeric data)
                then Err msg
                else Ok data)
  end.

End Library.
End Steps.

(** ** Vocabulary of the further statements *)
Section More_runs.
Context {host : Host}.

(** The schemas of a tuple, from position [i] on, accept [data[i]],
    [data[i+1]], ... in turn. *)
Inductive accepts_positions (data : list Value)
  : nat -> list Schema -> Heap -> list Value -> Heap -> Prop :=
  | accepts_positions_nil i h : accepts_positions data i [] h [] h
  | accepts_positions_cons i schema schemas h v h1 out h' :
      parse schema (nth i data VUndefined) h = (Return (Ok v), h1) ->
      accepts_positions data (S i) schemas h1 out h' ->
      accepts_positions data i (schema :: schemas) h (v :: out) h'.

(** A record accepts the entries under [keys] in turn: the key schema the
    key, then the value schema [data[k]]; [out] pairs what the two
    returned. *)
Inductive accepts_entries (key value : Schema) (data : Value)
  : list string -> Heap -> list (Value * Value) -> Heap -> Prop :=
  | accepts_entries_nil h : accepts_entries key value data [] h [] h
  | accepts_entries_cons k keys h k' h1 v h2 out h' :
      parse key (VStr k) h = (Return (Ok k'), h1) ->
      parse value (get data k) h1 = (Return (Ok v), h2) ->
      cannot_convert k' = None ->
      accepts_entries key value data keys h2 out h' ->
      accepts_entries key value data (k :: keys) h ((k', v) :: out) h'.

(** The object a record builds from what it accepted. *)
Definition record_object (obj : list (string * Value)) (out : list (Value * Value))
  : list (string * Value) :=
  fold_left (fun o kv => set o (property_key (fst kv)) (snd kv)) out obj.

(** [P] holds of a schema and of every schema it is built from. *)
Fixpoint every (P : Schema -> Prop) (s : Schema) : Prop :=
  P s
  /\ match s with
     | SList schema _ | SOpt schema | SDef schema _ _
     | SPipe schema _ | SMap schema _ | SPre schema _ => every P schema
     | SRecord key value _ => every P key /\ every P value
     | SObj props _ =>
         (fix each (ps : list (string * Schema)) : Prop :=
            match ps with
            | [] => True
            | p :: ps' => every P (snd p) /\ each ps'
            end) props
     | SUnion first rest _ | STuple first rest _ =>
         every P first
         /\ (fix each (ss : list Schema) : Prop :=
               match ss with
               | [] => True
               | s' :: ss' => every P s' /\ each ss'
               end) rest
     | _ => True
     end.

(** A cast is one of the four that [as] installs. *)
Definition is_cast (hook : Value -> M Value) : Prop :=
  hook = tryNum \/ hook = tryStr \/ hook = tryBool \/ hook = tryDate.

(** The schemas the exported functions can build: every [pre] in them comes
    from [as].  Their steps and mappers are functions of the model, which
    return the same result whenever they are given the same value; a
    function that keeps a state of its own from one call to the next is
    not among them. *)
Definition exported (s : Schema) : Prop :=
  every (fun s' => match s' with SPre _ hook => is_cast hook | _ => True end) s.

(** Every [lit] and [oneOf] of the schema was given a message. *)
Definition messages_given (s : Schema) : Prop :=
  every (fun s' =>
           match s' with
           | SLit _ None _ | SOneOf _ None _ => False
           | _ => True
           end) s.

(** Heap [h'] extends [h]: no reference is handed out again, no stored
    message is changed or dropped. *)
Definition extends (h h' : Heap) : Prop :=
  next_ref h <= next_ref h'
  /\ forall cell m, cells h !! cell = Some m -> cells h' !! cell = Some m.

(** Two results that differ at most in the message of the error. *)
Definition same_but_message (r1 r2 : Parsed) : Prop :=
  match r1, r2 with
  | Ok v1, Ok v2 => v1 = v2
  | Err e1, Err e2 =>
      actual e1 = actual e2 /\ expected e1 = expected e2
      /\ path e1 = path e2 /\ value e1 = value e2
  | _, _ => False
  end.

(** Two calls end the same way: both throw the same error, or both return
    and the results are related by [R]. *)
Definition same_outcome (R : Parsed -> Parsed -> Prop) (o1 o2 : Thrown Parsed)
  : Prop :=
  match o1, o2 with
  | Throw e1, Throw e2 => e1 = e2
  | Return r1, Return r2 => R r1 r2
  | _, _ => False
  end.

End More_runs.

(** ** A host to run examples on

    The theorems below hold for every [Host].  This one serves the worked
    examples: it agrees with the built-ins on [undefined], [null], booleans,
    integers, strings that JSON prints without escapes, decimal integer
    strings, the two date strings the tests use, and arrays of such values;
    [getTypeOf] gives the names the tests show; [ToPrimitive_error] is that
    of an object whose own [toString] and [valueOf], if any, are no
    functions.  Elsewhere it returns a placeholder. *)
Module ExampleHost.

Definition lower_ascii (c : ascii) : ascii :=
  let n := nat_of_ascii c in
  if Nat.leb 65 n && Nat.leb n 90 then ascii_of_nat (n + 32) else c.

Fixpoint lower (s : string) : string :=
  match s with
  | EmptyString => EmptyString
  | String c s' => String (lower_ascii c) (lower s')
  end.

Definition decimal (z : Z) : string := NilZero.string_of_int (Z.to_int z).

Definition type_name (v : Value) : string :=
  match v with
  | VUndefined => "undefined"
  | VNull => "null"
  | VBool _ => "boolean"
  | VNum _ => "number"
  | VStr _ => "string"
  | VDate _ _ => "date"
  | VArr _ => "array"
  | VFunction _ => "function"
  | _ => "object"
  end.

Fixpoint stringify (v : Value) : string :=
  match v with
  | VUndefined => "undefined"
  | VBool true => "true"
  | VBool false => "false"
  | VNum (Num z) => decimal z
  | VStr s => quote ++ s ++ quote
  | VArr items => "[" ++ join "," (map stringify items) ++ "]"
  | _ => "null"
  end.

Definition to_number (v : Value) : number :=
  match v with
  | VNull | VBool false | VStr "" => Num 0
  | VBool true => Num 1
  | VNum n => n
  | VStr s =>
      match NilZero.int_of_string s with
      | Some i => Num (Z.of_int i)
      | None => NaN
      end
  | _ => NaN
  end.

Definition to_string (v : Value) : string :=
  match v with
  | VUndefined => "undefined"
  | VNull => "null"
  | VBool true => "true"
  | VBool false => "false"
  | VNum NaN => "NaN"
  | VNum (Num z) => decimal z
  | VStr s => s
  | _ => "[object Object]"
  end.

(** The [TypeError] of an object whose own [toString] is no function and
    which has no own [valueOf] that is one. *)
Definition to_primitive_error (v : Value) : option Error :=
  match v with
  | VObj fields =>
      match lookup_field fields "toString" with
      | None | Some (VFunction _) => None
      | Some _ =>
          match lookup_field fields "valueOf" with
          | Some (VFunction _) => None
          | _ => Some (mkError "Cannot convert object to primitive value")
          end
      end
  | _ => None
  end.

Definition date_parse (s : string) : option Z :=
  if String.eqb s "1970-01-01" then Some 0%Z
  else if String.eqb s "2022-01-01" then Some 1640995200000%Z
  else None.

#[export] Instance host : Host := {|
  getTypeOf := type_name;
  JSON_stringify := stringify;
  Number := to_number;
  String_ := to_string;
  ToPrimitive_error := to_primitive_error;
  toLowerCase := lower;
  Date_parse := date_parse;
|}.

(** The heap of a program that has allocated [n] objects and run no
    schema yet. *)
Definition heap (n : nat) : Heap := {| next_ref := n; cells := ∅ |}.

(** What [s.parse(data)] returns when it is the first thing the program
    does. *)
Definition run (s : Schema) (data : Value) : Thrown Parsed :=
  fst (parse s data (heap 0)).

End ExampleHost.


(** A calendar for the worked examples: it prints the two instants the
    tests use as [toISOString] does, and a placeholder elsewhere. *)
Module ExampleCalendar.

Definition iso (t : Z) : string :=
  if Z.eqb t 0 then "1970-01-01T00:00:00.000Z"
  else if Z.eqb t 1640995200000 then "2022-01-01T00:00:00.000Z"
  else "".

#[export] Instance calendar : Calendar := {| toISOString := iso |}.

End ExampleCalendar.

(** ** Proofs *)

Section Facts.
Context {host : Host}.

(** *** Induction over schemas, through their lists of children *)

Section Schema_induction.
Variable P : Schema -> Prop.
Hypothesis P_any : P SAny.
Hypothesis P_str : forall message, P (SStr message).
Hypothesis P_num : forall message, P (SNum message).
Hypothesis P_bool : forall message, P (SBool message).
Hypothesis P_date : forall message, P (SDate message).
Hypothesis P_list : forall schema message, P schema -> P (SList schema message).
Hypothesis P_obj : forall props message,
  Forall (fun p => P (snd p)) props -> P (SObj props message).
Hypothesis P_record : forall key value message,
  P key -> P value -> P (SRecord key value message).
Hypothesis P_union : forall first rest message,
  P first -> Forall P rest -> P (SUnion first rest message).
Hypothesis P_tuple : forall first rest message,
  P first -> Forall P rest -> P (STuple first rest message).
Hypothesis P_enum : forall values message, P (SEnum values message).
Hypothesis P_oneOf : forall values message cell, P (SOneOf values message cell).
Hypothesis P_lit : forall value message cell, P (SLit value message cell).
Hypothesis P_opt : forall schema, P schema -> P (SOpt schema).
Hypothesis P_def : forall schema defaultValue message,
  P schema -> P (SDef schema defaultValue message).
Hypothesis P_pipe : forall schema pipeline, P schema -> P (SPipe schema pipeline).
Hypothesis P_map : forall schema mapper, P schema -> P (SMap schema mapper).
Hypothesis P_pre : forall schema hook, P schema -> P (SPre schema hook).

Fixpoint Schema_nested_ind (s : Schema) : P s :=
  match s with
  | SAny => P_any
  | SStr message => P_str message
  | SNum message => P_num message
  | SBool message => P_bool message
  | SDate message => P_date message
  | SList schema message => P_list schema message (Schema_nested_ind schema)
  | SObj props message =>
      P_obj props message
        ((fix each (ps : list (string * Schema))
            : Forall (fun p => P (snd p)) ps :=
            match ps with
            | [] => List.Forall_nil _
            | p :: ps' => List.Forall_cons _ _ _ (Schema_nested_ind (snd p)) (each ps')
            end) props)
  | SRecord key value message =>
      P_record key value message (Schema_nested_ind key) (Schema_nested_ind value)
  | SUnion first rest message =>
      P_union first rest message (Schema_nested_ind first)
        ((fix each (ss : list Schema) : Forall P ss :=
            match ss with
            | [] => List.Forall_nil _
            | s' :: ss' => List.Forall_cons _ _ _ (Schema_nested_ind s') (each ss')
            end) rest)
  | STuple first rest message =>
      P_tuple first rest message (Schema_nested_ind first)
        ((fix each (ss : list Schema) : Forall P ss :=
            match ss with
            | [] => List.Forall_nil _
            | s' :: ss' => List.Forall_cons _ _ _ (Schema_nested_ind s') (each ss')
            end) rest)
  | SEnum values message => P_enum values message
  | SOneOf values message cell => P_oneOf values message cell
  | SLit value message cell => P_lit value message cell
  | SOpt schema => P_opt schema (Schema_nested_ind schema)
  | SDef schema defaultValue message =>
      P_def schema defaultValue message (Schema_nested_ind schema)
  | SPipe schema pipeline => P_pipe schema pipeline (Schema_nested_ind schema)
  | SMap schema mapper => P_map schema mapper (Schema_nested_ind schema)
  | SPre schema hook => P_pre schema hook (Schema_nested_ind schema)
  end.
End Schema_induction.


(** *** The heap *)

Lemma nullish_assign_returns cell message fallback h :
  exists m h', nullish_assign cell message fallback h = (Return m, h').
Proof.
  unfold nullish_assign. destruct message as [m|]; [now exists m, h|].
  destruct (cells h !! cell) as [m|]; eauto.
Qed.

(** *** [err] and [with_segment] *)

Lemma err_path (expected : string) (v : Value) (message : option string) :
  path (err expected v message) = [].
Proof. reflexivity. Qed.

Lemma with_segment_fields (segment : string) (e : ParseError) :
  actual (with_segment segment e) = actual e
  /\ expected (with_segment segment e) = expected e
  /\ message (with_segment segment e) = message e
  /\ value (with_segment segment e) = value e
  /\ path (with_segment segment e) = segment :: path e.
Proof. repeat split. Qed.

(** *** Runs *)




(** *** [list] *)





(** *** [obj] *)



Lemma obj_loop_accepts data props :
  forall obj h out h',
    accepts_props data props h out h' ->
    obj_loop (map (fun p => (fst p, parse (snd p))) props) data obj h
    = (Return (Ok (VObj (assign_all obj out))), h').
Proof.
  induction props as [|[key schema] props IH]; intros obj h out h' Hall;
    inversion Hall as [|? ? ? ? v h1 out' ? Hp Hrest]; subst; simpl.
  - reflexivity.
  - unfold bind. rewrite Hp. now rewrite (IH _ _ _ _ Hrest).
Qed.





Lemma set_fresh obj key v :
  ~ In key (map fst obj) -> set obj key v = obj ++ [(key, v)].
Proof.
  induction obj as [|[k0 old] obj IH]; simpl; intros Hfresh.
  - reflexivity.
  - destruct (String.eqb k0 key) eqn:E.
    + apply String.eqb_eq in E. tauto.
    + rewrite IH; [reflexivity | tauto].
Qed.




Lemma parse_obj_accepts props message data h out h' :
  isPlainObject data = true ->
  accepts_props data props h out h' ->
  parse (SObj props message) data h = (Return (Ok (VObj (assign_all [] out))), h').
Proof.
  intros Hplain Hall. simpl. rewrite Hplain. simpl. now apply obj_loop_accepts.
Qed.



(** *** Property order *)






(** *** [union] *)





Lemma union_unfold first rest message data h :
  parse (SUnion first rest message) data h
  = match union_loop (map parse (first :: rest)) data h with
    | (Return (Some result), h') => (Return result, h')
    | (Return None, h') =>
        (Return (Err (err (join " | " (map type_of (first :: rest))) data message)), h')
    | (Throw ex, h') => (Throw ex, h')
    end.
Proof.
  simpl. unfold bind.
  destruct (parse first data h) as [[ex|[v|e]] h1]; simpl; try reflexivity.
  destruct (union_loop (map parse rest) data h1) as [[ex|[r|]] h2]; reflexivity.
Qed.


(** *** [pipe] *)

Lemma pipe_loop_passes pipeline :
  forall acc out, steps_pass pipeline acc out -> pipe_loop pipeline acc = Ok out.
Proof.
  induction pipeline as [|p pipeline IH]; intros acc out Hall;
    inversion Hall as [|? ? ? v ? Hp Hrest]; subst; simpl.
  - reflexivity.
  - rewrite Hp. now apply IH.
Qed.

Lemma pipe_loop_fails before :
  forall (pipe : Pipe) after v acc msg,
    steps_pass before v acc ->
    pipe acc = Err msg ->
    pipe_loop (before ++ pipe :: after) v = Err (err "pipe" acc (Some msg)).
Proof.
  induction before as [|p before IH]; intros pipe after v acc msg Hall He;
    inversion Hall as [|? ? ? w ? Hp Hrest]; subst; simpl.
  - now rewrite He.
  - rewrite Hp. eapply IH; eassumption.
Qed.

Lemma pipe_loop_path pipeline :
  forall acc e, pipe_loop pipeline acc = Err e -> path e = [].
Proof.
  induction pipeline as [|p pipeline IH]; intros acc e; simpl.
  - discriminate.
  - destruct (p acc) as [v|msg].
    + apply IH.
    + intros [= <-]. reflexivity.
Qed.

(** C8, as the code has it.  When [schema] accepts [data] with value [v],
    [pipe(schema, ...pipeline)] hands [v] to the steps in order, each
    getting what the one before returned.  If all succeed the result is the
    last value.  The first step to fail, on the value [acc] the earlier
    steps made of [v], ends the run whatever the later steps are, with a
    [ParseError] whose [expected] is "pipe", whose [value] is [acc], whose
    path is empty, and whose message is the string the step returned when
    that string is not empty, and "Expected pipe, but got " followed by the
    type of [acc] when it is. *)
Theorem pipe_parse (schema : Schema) (pipeline : list Pipe)
    (data : Value) (h : Heap) (v : Value) (h' : Heap) :
  parse schema data h = (Return (Ok v), h') ->
  (forall out,
     steps_pass pipeline v out ->
     parse (SPipe schema pipeline) data h = (Return (Ok out), h'))
  /\ (forall before (pipe : Pipe) after acc msg,
        pipeline = before ++ pipe :: after ->
        steps_pass before v acc ->
        pipe acc = Err msg ->
        parse (SPipe schema pipeline) data h
        = (Return (Err {| actual := getTypeOf acc;
                  expected := "pipe";
                  message :=
                    if String.eqb msg "" then
                      "Expected pipe, but got " ++ getTypeOf acc
                    else msg;
                  path := [];
                  value := acc |}), h')).
Proof.
  intros Hv. split.
  - intros out Hall. simpl. unfold bind. rewrite Hv. unfold ret.
    now rewrite (pipe_loop_passes _ _ _ Hall).
  - intros before pipe after acc msg -> Hall He.
    simpl. unfold bind. rewrite Hv. unfold ret.
    now rewrite (pipe_loop_fails _ _ after _ _ _ Hall He).
Qed.

(** *** [date] *)

(** C6.  [date().parse(data)] succeeds exactly when [data] is a date
    whose time value is a number: anything that is not a date, and the
    invalid date, get a "date" error.  On success the result is a date with
    the time value of the input, held under a reference that was free
    before the call, so it is neither the input nor any other object that
    existed. *)
Theorem date_schema_parse (message : option string) (data : Value) (h : Heap) :
  (accepted (fst (parse (SDate message) data h)) = true
   <-> exists ref t, data = VDate ref (Some t))
  /\ (forall ref t,
        data = VDate ref (Some t) ->
        parse (SDate message) data h
        = (Return (Ok (VDate (next_ref h) (Some t))),
           {| next_ref := S (next_ref h); cells := cells h |})
        /\ time_value (VDate (next_ref h) (Some t)) = time_value data
        /\ forall d, allocated h d ->
             same_object (VDate (next_ref h) (Some t)) d = false)
  /\ ((forall ref t, data <> VDate ref (Some t)) ->
      parse (SDate message) data h = (Return (Err (err "date" data message)), h))
  /\ (forall ref,
        parse (SDate message) (VDate ref None) h
        = (Return (Err (err "date" (VDate ref None) message)), h)).
Proof.
  repeat split.
  - destruct data as [| | | | |ref [t|]| | | | | |]; simpl; try discriminate.
    intros _. now exists ref, t.
  - intros (ref & t & ->). reflexivity.
  - subst data. reflexivity.
  - subst data. reflexivity.
  - intros d Hd. destruct d as [| | | | |r ti| | | | | |]; try reflexivity.
    simpl in *. apply Nat.eqb_neq. lia.
  - intros Hnot. destruct data as [| | | | |ref [t|]| | | | | |]; try reflexivity.
    now destruct (Hnot ref t).
Qed.

(** *** [as] *)


(** *** [enum] *)

Lemma same_value_zero_eq (data : Value) (p : primitive) :
  same_value_zero data p = true <-> data = primitive_value p.
Proof.
  destruct data as [| |a|[|a]|a| | | | | | |], p as [b|[|b]|b]; simpl;
    try (split; [discriminate | discriminate]);
    try (split; [reflexivity | reflexivity]).
  - rewrite Bool.eqb_true_iff. split; [now intros -> | now intros [= ->]].
  - rewrite Z.eqb_eq. split; [now intros -> | now intros [= ->]].
  - rewrite String.eqb_eq. split; [now intros -> | now intros [= ->]].
Qed.

Lemma includes_member (e : Enum) (data : Value) :
  includes (Object_values e) data = true <-> member_of e data.
Proof.
  unfold includes, Object_values, member_of. rewrite existsb_exists. split.
  - intros (p & Hin & Heq). apply in_map_iff in Hin.
    destruct Hin as ([key member] & <- & Hin).
    exists key, member. split; [exact Hin | now apply same_value_zero_eq].
  - intros (key & member & Hin & ->). exists member. split.
    + apply in_map_iff. now exists (key, member).
    + now apply same_value_zero_eq.
Qed.

Lemma numeric_enum_name (names : list string) : forall i n,
  In n names -> exists j, In (toString j, PStr n) (numeric_enum i names).
Proof.
  induction names as [|n0 names IH]; intros i n; simpl; [tauto|].
  intros [->|Hin].
  - exists i. right. now left.
  - destruct (IH (S i) n Hin) as (j & Hj). exists j. right. now right.
Qed.

Lemma numeric_enum_number (names : list string) : forall i j n,
  names !! j = Some n ->
  In (n, PNum (Num (Z.of_nat (i + j)))) (numeric_enum i names).
Proof.
  induction names as [|n0 names IH]; intros i j n Hj;
    [destruct j; discriminate|].
  destruct j as [|j]; simpl in *.
  - injection Hj as ->. rewrite Nat.add_0_r. now left.
  - right. right. rewrite Nat.add_succ_r. now apply (IH (S i)).
Qed.

(** C10.  [enum(e).parse(data)] returns [data] exactly when [data] is
    the value of an own property of [e], and an "enum" error otherwise.
    The object of a numeric TypeScript enum stores each member's name under
    its number as well as its number under its name, so the schema accepts
    the member names, as strings, besides the numbers. *)
Theorem enum_parse :
  (forall (e : Enum) message data h,
     (member_of e data -> parse (_enum e message) data h = (Return (Ok data), h))
     /\ (~ member_of e data ->
         parse (_enum e message) data h = (Return (Err (err "enum" data message)), h))
     /\ (accepted (fst (parse (_enum e message) data h)) = true <-> member_of e data))
  /\ (forall names message h n,
        In n names ->
        parse (_enum (numeric_enum 0 names) message) (VStr n) h
        = (Return (Ok (VStr n)), h))
  /\ (forall names message h j n,
        names !! j = Some n ->
        parse (_enum (numeric_enum 0 names) message)
          (VNum (Num (Z.of_nat j))) h
        = (Return (Ok (VNum (Num (Z.of_nat j)))), h)).
Proof.
  assert (Hyes : forall (e : Enum) message data h,
             member_of e data -> parse (_enum e message) data h = (Return (Ok data), h)).
  { intros e message data h Hin. apply includes_member in Hin.
    simpl. now rewrite Hin. }
  assert (Hno : forall (e : Enum) message data h,
             ~ member_of e data ->
             parse (_enum e message) data h = (Return (Err (err "enum" data message)), h)).
  { intros e message data h Hnot. simpl.
    destruct (includes (Object_values e) data) eqn:E; [|reflexivity].
    apply includes_member in E. contradiction. }
  split; [|split].
  - intros e message data h. split; [apply Hyes|]. split; [apply Hno|].
    split.
    + intros Hok. simpl in Hok.
      destruct (includes (Object_values e) data) eqn:E; [|discriminate].
      now apply includes_member.
    + intros Hin. now rewrite (Hyes _ message _ h Hin).
  - intros names message h n Hin. apply Hyes.
    destruct (numeric_enum_name names 0 n Hin) as (j & Hj).
    now exists (toString j), (PStr n).
  - intros names message h j n Hj. apply Hyes.
    exists n, (PNum (Num (Z.of_nat j))). split; [|reflexivity].
    apply (numeric_enum_number names 0 j n Hj).
Qed.

(** *** [opt] and [partial] *)








(** *** Where an error of a composite schema comes from *)

Lemma list_loop_err (parse : Parser) data :
  forall i arr h e h',
    list_loop parse i data arr h = (Return (Err e), h') ->
    exists j d e0 hj,
      data !! j = Some d
      /\ parse d hj = (Return (Err e0), h')
      /\ e = with_segment (toString (i + j)) e0.
Proof.
  induction data as [|d data IH]; intros i arr h e h'; simpl.
  - discriminate.
  - unfold bind. destruct (parse d h) as [[ex|[v|e0]] h1] eqn:Hd; [discriminate| |].
    + intros Hloop. destruct (IH _ _ _ _ _ Hloop) as (j & d' & e1 & hj & Hj & Hp & ->).
      exists (S j), d', e1, hj. rewrite Nat.add_succ_r. now repeat split.
    + intros [= <- <-]. exists 0, d, e0, h. rewrite Nat.add_0_r. now repeat split.
Qed.

Lemma tuple_loop_err data schemas :
  forall i arr h e h',
    tuple_loop (map parse schemas) i data arr h = (Return (Err e), h') ->
    exists j schema e0 hj,
      schemas !! j = Some schema
      /\ parse schema (nth (i + j) data VUndefined) hj = (Return (Err e0), h')
      /\ e = with_segment (toString (i + j)) e0.
Proof.
  induction schemas as [|s schemas IH]; intros i arr h e h'; simpl.
  - discriminate.
  - unfold bind. destruct (parse s (nth i data VUndefined) h) as [[ex|[v|e0]] h1] eqn:Hs;
      [discriminate| |].
    + intros Hloop.
      destruct (IH _ _ _ _ _ Hloop) as (j & s' & e1 & hj & Hj & Hp & ->).
      exists (S j), s', e1, hj. rewrite Nat.add_succ_r. now repeat split.
    + intros [= <- <-]. exists 0, s, e0, h. rewrite Nat.add_0_r. now repeat split.
Qed.

Lemma obj_loop_err data props :
  forall obj h e h',
    obj_loop (map (fun p => (fst p, parse (snd p))) props) data obj h
    = (Return (Err e), h') ->
    exists key schema e0 hj,
      In (key, schema) props
      /\ parse schema (get data key) hj = (Return (Err e0), h')
      /\ e = with_segment key e0.
Proof.
  induction props as [|[key schema] props IH]; intros obj h e h'; simpl.
  - discriminate.
  - unfold bind. destruct (parse schema (get data key) h) as [[ex|[v|e0]] h1] eqn:Hs;
      [discriminate| |].
    + intros Hloop.
      destruct (IH _ _ _ _ Hloop) as (k & s & e1 & hj & Hin & Hp & ->).
      exists k, s, e1, hj. split; [now right | now split].
    + intros [= <- <-]. exists key, schema, e0, h. split; [now left | now split].
Qed.

Lemma record_loop_err (key value : Parser) data keys :
  forall obj h e h',
    record_loop key value keys data obj h = (Return (Err e), h') ->
    exists k e0 hj,
      In k keys
      /\ (key (VStr k) hj = (Return (Err e0), h') \/ value (get data k) hj = (Return (Err e0), h'))
      /\ e = with_segment k e0.
Proof.
  induction keys as [|k keys IH]; intros obj h e h'; simpl.
  - discriminate.
  - unfold bind. destruct (key (VStr k) h) as [[ex|[k'|e0]] h1] eqn:Hk; [discriminate| |].
    + destruct (value (get data k) h1) as [[ex|[v|e0]] h2] eqn:Hv;
        [discriminate| |].
      * destruct (cannot_convert k'); [discriminate|]. intros Hloop.
        destruct (IH _ _ _ _ Hloop) as (k0 & e1 & hj & Hin & Hp & ->).
        exists k0, e1, hj. split; [now right | now split].
      * intros [= <- <-]. exists k, e0, h1.
        split; [now left|]. split; [now right | reflexivity].
    + intros [= <- <-]. exists k, e0, h.
      split; [now left|]. split; [now left | reflexivity].
Qed.

Lemma union_loop_some (parsers : list Parser) data :
  forall h r h', union_loop parsers data h = (Return (Some r), h') -> isOk r = true.
Proof.
  induction parsers as [|p parsers IH]; intros h r h'; simpl.
  - discriminate.
  - unfold bind. destruct (p data h) as [[ex|[v|e]] h1]; simpl; [discriminate| |].
    + now intros [= <- <-].
    + apply IH.
Qed.

Lemma union_err first rest message data h e h' :
  parse (SUnion first rest message) data h = (Return (Err e), h') ->
  e = err (join " | " (map type_of (first :: rest))) data message.
Proof.
  rewrite union_unfold.
  destruct (union_loop (map parse (first :: rest)) data h)
    as [[ex|[r|]] h1] eqn:Hloop; [discriminate| |].
  - apply union_loop_some in Hloop. intros [= -> <-]. discriminate.
  - now intros [= <- <-].
Qed.

Lemma originates_path s data h e h' :
  originates s = true -> parse s data h = (Return (Err e), h') -> path e = [].
Proof.
  destruct s; try discriminate; intros _; simpl.
  - destruct (isString data); now intros [= <- <-].
  - destruct (isNumber data); now intros [= <- <-].
  - destruct (isBoolean data); now intros [= <- <-].
  - destruct (isDate data); [discriminate | now intros [= <- <-]].
  - intros He. now rewrite (union_err _ _ _ _ _ _ _ He).
  - destruct (includes values data); now intros [= <- <-].
  - destruct (includes (map PStr values) data); [discriminate|].
    unfold bind. destruct (nullish_assign _ _ _ h) as [[ex|m] h1]; [discriminate|].
    now intros [= <- <-].
  - match goal with
    | |- context [strict_equals ?d ?v] => destruct (strict_equals d v)
    end; [discriminate|].
    unfold bind. destruct (nullish_assign _ _ _ h) as [[ex|m] h1]; [discriminate|].
    now intros [= <- <-].
Qed.

(** *** The delivered path, read from the root *)

Lemma parse_list_err schema message data h e h' :
  parse (SList schema message) data h = (Return (Err e), h') ->
  e = err "list" data message
  \/ exists i d e0 hi,
       elements data !! i = Some d
       /\ parse schema d hi = (Return (Err e0), h')
       /\ e = with_segment (toString i) e0.
Proof.
  simpl. destruct (isArray data); simpl.
  - intros Hloop. right. exact (list_loop_err _ _ _ _ _ _ _ Hloop).
  - intros [= <- <-]. now left.
Qed.

Lemma parse_tuple_err first rest message data h e h' :
  parse (STuple first rest message) data h = (Return (Err e), h') ->
  e = err "tuple" data message
  \/ exists i schema e0 hi,
       (first :: rest) !! i = Some schema
       /\ parse schema (nth i (elements data) VUndefined) hi = (Return (Err e0), h')
       /\ e = with_segment (toString i) e0.
Proof.
  cbn [parse].
  destruct (negb (isArray data)
            || negb (Nat.eqb (length (elements data)) (length (first :: rest)))).
  - intros [= <- <-]. now left.
  - intros Hloop. right.
    exact (tuple_loop_err _ (first :: rest) _ _ _ _ _ Hloop).
Qed.

Lemma parse_obj_err props message data h e h' :
  parse (SObj props message) data h = (Return (Err e), h') ->
  e = err "object" data message
  \/ exists key schema e0 hi,
       In (key, schema) props
       /\ parse schema (get data key) hi = (Return (Err e0), h')
       /\ e = with_segment key e0.
Proof.
  simpl. destruct (isPlainObject data); simpl.
  - intros Hloop. right. exact (obj_loop_err _ _ _ _ _ _ Hloop).
  - intros [= <- <-]. now left.
Qed.

Lemma parse_record_err key value message data h e h' :
  parse (SRecord key value message) data h = (Return (Err e), h') ->
  e = err "record" data message
  \/ exists k e0 hi,
       In k (keys_of data)
       /\ (parse key (VStr k) hi = (Return (Err e0), h')
           \/ parse value (get data k) hi = (Return (Err e0), h'))
       /\ e = with_segment k e0.
Proof.
  simpl. destruct (isPlainObject data); simpl.
  - intros Hloop. right. exact (record_loop_err _ _ _ _ _ _ _ _ Hloop).
  - intros [= <- <-]. now left.
Qed.

Lemma parse_descends (s : Schema) :
  forall data h e h', parse s data h = (Return (Err e), h') -> descends s data (path e).
Proof.
  induction s as
    [ | message | message | message | message
    | schema message IH
    | props message IH
    | key value message IHkey IHvalue
    | first rest message IHfirst IHrest
    | first rest message IHfirst IHrest
    | values message | values message cell | lit message cell
    | schema IH
    | schema defaultValue message IH
    | schema pipeline IH
    | schema mapper IH
    | schema hook IH ] using Schema_nested_ind;
    intros data h e h' Hp;
    try (rewrite (fun Ho => originates_path _ _ _ _ _ Ho Hp) by reflexivity;
         constructor).
  - (* any *) discriminate.
  - (* list *)
    destruct (parse_list_err _ _ _ _ _ _ Hp) as [->|(i & d & e0 & hi & Hi & He0 & ->)].
    + constructor.
    + simpl. econstructor; [exact Hi | eapply IH; exact He0].
  - (* obj *)
    destruct (parse_obj_err _ _ _ _ _ _ Hp)
      as [->|(key & schema & e0 & hi & Hin & He0 & ->)].
    + constructor.
    + simpl. econstructor; [exact Hin|].
      rewrite List.Forall_forall in IH.
      exact (IH _ Hin _ _ _ _ He0).
  - (* record *)
    destruct (parse_record_err _ _ _ _ _ _ _ Hp)
      as [->|(k & e0 & hi & Hin & [He0|He0] & ->)].
    + constructor.
    + simpl. eapply descends_record_key; [exact Hin | eapply IHkey; exact He0].
    + simpl. eapply descends_record_value; [exact Hin | eapply IHvalue; exact He0].
  - (* tuple *)
    destruct (parse_tuple_err _ _ _ _ _ _ _ Hp)
      as [->|(i & schema & e0 & hi & Hi & He0 & ->)].
    + constructor.
    + simpl. econstructor; [exact Hi|].
      destruct i as [|i]; simpl in Hi.
      * injection Hi as <-. eapply IHfirst; exact He0.
      * exact (Forall_lookup_1 _ _ _ _ IHrest Hi _ _ _ _ He0).
  - (* opt *)
    simpl in Hp. destruct (isNil data); [discriminate|].
    unfold bind in Hp.
    destruct (parse schema data h) as [[ex|[v|e0]] h1] eqn:Hs; [discriminate| |].
    + discriminate.
    + injection Hp as <- <-. constructor. eapply IH; exact Hs.
  - (* def *)
    simpl in Hp. destruct (isNil data); [discriminate|].
    constructor. eapply IH; exact Hp.
  - (* pipe *)
    simpl in Hp. unfold bind, ret in Hp.
    destruct (parse schema data h) as [[ex|[v|e0]] h1] eqn:Hs; [discriminate| |].
    + injection Hp as Hloop <-. rewrite (pipe_loop_path _ _ _ Hloop). constructor.
    + injection Hp as <- <-. constructor. eapply IH; exact Hs.
  - (* map *)
    simpl in Hp. unfold bind, ret in Hp.
    destruct (parse schema data h) as [[ex|[v|e0]] h1] eqn:Hs; [discriminate| |].
    + destruct (mapper v) as [u|m]; [discriminate|].
      injection Hp as <- <-. constructor.
    + injection Hp as <- <-. constructor. eapply IH; exact Hs.
  - (* pre *)
    simpl in Hp. unfold bind in Hp.
    destruct (hook data h) as [[ex|data'] h1] eqn:Hh; [discriminate|].
    eapply descends_pre; [exact Hh | eapply IH; exact Hp].
Qed.

(** C1.  An error starts with an empty path: [err] builds it so, and
    that is the error of a failing primitive, membership test or union and
    of a failing pipeline step.  A list, tuple, object or record that fails
    either reports its own such error or hands on the error of one child
    with one segment put in front of its path (the index as a string, or
    the key) and every other field as it was.  So the path that [parse]
    delivers, read from the left, descends from the root schema and input
    through one composite per segment. *)
Theorem path_accumulation :
  (forall expected v message, path (err expected v message) = [])
  /\ (forall s data h e h',
        originates s = true -> parse s data h = (Return (Err e), h') -> path e = [])
  /\ (forall schema pipeline data h v h1 e,
        parse schema data h = (Return (Ok v), h1) ->
        pipe_loop pipeline v = Err e ->
        parse (SPipe schema pipeline) data h = (Return (Err e), h1) /\ path e = [])
  /\ (forall segment e,
        actual (with_segment segment e) = actual e
        /\ expected (with_segment segment e) = expected e
        /\ message (with_segment segment e) = message e
        /\ value (with_segment segment e) = value e
        /\ path (with_segment segment e) = segment :: path e)
  /\ (forall schema message data h e h',
        parse (SList schema message) data h = (Return (Err e), h') ->
        e = err "list" data message
        \/ exists i d e0 hi,
             elements data !! i = Some d
             /\ parse schema d hi = (Return (Err e0), h')
             /\ e = with_segment (toString i) e0)
  /\ (forall first rest message data h e h',
        parse (STuple first rest message) data h = (Return (Err e), h') ->
        e = err "tuple" data message
        \/ exists i schema e0 hi,
             (first :: rest) !! i = Some schema
             /\ parse schema (nth i (elements data) VUndefined) hi = (Return (Err e0), h')
             /\ e = with_segment (toString i) e0)
  /\ (forall props message data h e h',
        parse (SObj props message) data h = (Return (Err e), h') ->
        e = err "object" data message
        \/ exists key schema e0 hi,
             In (key, schema) props
             /\ parse schema (get data key) hi = (Return (Err e0), h')
             /\ e = with_segment key e0)
  /\ (forall key value message data h e h',
        parse (SRecord key value message) data h = (Return (Err e), h') ->
        e = err "record" data message
        \/ exists k e0 hi,
             In k (keys_of data)
             /\ (parse key (VStr k) hi = (Return (Err e0), h')
                 \/ parse value (get data k) hi = (Return (Err e0), h'))
             /\ e = with_segment k e0)
  /\ (forall s data h e h',
        parse s data h = (Return (Err e), h') -> descends s data (path e)).
Proof.
  split; [apply err_path|].
  split; [apply originates_path|].
  split.
  { intros schema pipeline data h v h1 e Hv Hloop. split.
    - simpl. unfold bind, ret. now rewrite Hv, Hloop.
    - eapply pipe_loop_path; exact Hloop. }
  split; [apply with_segment_fields|].
  split; [apply parse_list_err|].
  split; [apply parse_tuple_err|].
  split; [apply parse_obj_err|].
  split; [apply parse_record_err|].
  apply parse_descends.
Qed.

(** *** The [message] variable of [lit] and [oneOf] *)

(** A [lit] schema built without a message, failing for the first time on
    [a], stores the message about [a]; its next failure, on any [b],
    reports that stored message. *)
Lemma lit_reuses_first_message (value : primitive) (cell : nat)
    (a b : Value) (h : Heap) :
  cells h !! cell = None ->
  strict_equals a value = false ->
  strict_equals b value = false ->
  exists e1 h1 e2,
    parse (SLit value None cell) a h = (Return (Err e1), h1)
    /\ parse (SLit value None cell) b h1 = (Return (Err e2), h1)
    /\ message e1
       = ("Expected " ++ JSON_stringify (primitive_value value)
           ++ ", but got " ++ JSON_stringify a)%string
    /\ message e2 = message e1.
Proof.
  intros Hcell Ha Hb. cbn [parse]. rewrite Ha, Hb.
  unfold bind, ret, nullish_assign. rewrite Hcell.
  eexists _, _, _. split; [reflexivity|].
  cbn [cells]. rewrite lookup_insert_eq.
  split; [reflexivity|]. split; reflexivity.
Qed.

(** The same for [oneOf]. *)
Lemma oneOf_reuses_first_message (values : list string) (cell : nat)
    (a b : Value) (h : Heap) :
  cells h !! cell = None ->
  includes (map PStr values) a = false ->
  includes (map PStr values) b = false ->
  exists e1 h1 e2,
    parse (SOneOf values None cell) a h = (Return (Err e1), h1)
    /\ parse (SOneOf values None cell) b h1 = (Return (Err e2), h1)
    /\ message e1
       = ("Expected one of " ++ JSON_stringify (VArr (map VStr values))
           ++ ", but got " ++ JSON_stringify a)%string
    /\ message e2 = message e1.
Proof.
  intros Hcell Ha Hb. cbn [parse]. rewrite Ha, Hb.
  unfold bind, ret, nullish_assign. rewrite Hcell.
  eexists _, _, _. split; [reflexivity|].
  cbn [cells]. rewrite lookup_insert_eq.
  split; [reflexivity|]. split; reflexivity.
Qed.

End Facts.


(** ** More proofs *)

Section More_facts.
Context {host : Host}.

(** *** [tuple] *)

Lemma accepts_positions_length data schemas :
  forall i h out h',
    accepts_positions data i schemas h out h' -> length out = length schemas.
Proof. induction schemas; intros i h out h' Hall; inversion Hall; subst; simpl; eauto. Qed.

Lemma accepts_positions_or_not data schemas :
  forall i h,
    (exists out h', accepts_positions data i schemas h out h')
    \/ (exists before schema after out h1 r h2,
          schemas = before ++ schema :: after
          /\ accepts_positions data i before h out h1
          /\ parse schema (nth (i + length before) data VUndefined) h1 = (r, h2)
          /\ accepted r = false).
Proof.
  induction schemas as [|s schemas IH]; intros i h.
  - left. exists [], h. constructor.
  - destruct (parse s (nth i data VUndefined) h) as [[ex|[v|e]] h1] eqn:Hs.
    + right. exists [], s, schemas, [], h, (Throw ex), h1.
      split; [reflexivity|]. split; [constructor|].
      simpl. now rewrite Nat.add_0_r.
    + destruct (IH (S i) h1)
        as [(out & h' & Hall)
           |(before & s' & after & out & h2 & r & h3 & -> & Hall & Hr)].
      * left. exists (v :: out), h'. econstructor; eassumption.
      * right. exists (s :: before), s', after, (v :: out), h2, r, h3.
        split; [reflexivity|]. split; [econstructor; eassumption|].
        simpl. now rewrite Nat.add_succ_r.
    + right. exists [], s, schemas, [], h, (Return (Err e)), h1.
      split; [reflexivity|]. split; [constructor|].
      simpl. now rewrite Nat.add_0_r.
Qed.

Lemma tuple_loop_accepts data schemas :
  forall i arr h out h',
    accepts_positions data i schemas h out h' ->
    tuple_loop (map parse schemas) i data arr h = (Return (Ok (VArr (arr ++ out))), h').
Proof.
  induction schemas as [|s schemas IH]; intros i arr h out h' Hall;
    inversion Hall as [|? ? ? ? v h1 out' ? Hs Hrest]; subst; simpl.
  - unfold ret. now rewrite app_nil_r.
  - unfold bind. rewrite Hs. rewrite (IH _ _ _ _ _ Hrest).
    now rewrite <- app_assoc.
Qed.

Lemma tuple_loop_rejects data before :
  forall schema after i arr h out h1 e h2,
    accepts_positions data i before h out h1 ->
    parse schema (nth (i + length before) data VUndefined) h1 = (Return (Err e), h2) ->
    tuple_loop (map parse (before ++ schema :: after)) i data arr h
    = (Return (Err (with_segment (toString (i + length before)) e)), h2).
Proof.
  induction before as [|b before IH];
    intros schema after i arr h out h1 e h2 Hall He;
    inversion Hall as [|? ? ? ? v h0 out' ? Hb Hrest]; subst; simpl in *.
  - rewrite Nat.add_0_r in *. unfold bind. now rewrite He.
  - unfold bind. rewrite Hb. rewrite Nat.add_succ_r in *.
    exact (IH _ _ (S i) _ _ _ _ _ _ Hrest He).
Qed.

Lemma tuple_loop_throws data before :
  forall schema after i arr h out h1 ex h2,
    accepts_positions data i before h out h1 ->
    parse schema (nth (i + length before) data VUndefined) h1 = (Throw ex, h2) ->
    tuple_loop (map parse (before ++ schema :: after)) i data arr h
    = (Throw ex, h2).
Proof.
  induction before as [|b before IH];
    intros schema after i arr h out h1 ex h2 Hall He;
    inversion Hall as [|? ? ? ? v h0 out' ? Hb Hrest]; subst; simpl in *.
  - rewrite Nat.add_0_r in *. unfold bind. now rewrite He.
  - unfold bind. rewrite Hb. rewrite Nat.add_succ_r in *.
    exact (IH _ _ (S i) _ _ _ _ _ _ Hrest He).
Qed.

(** X1.  [tuple([first, ...rest]).parse(data)]: a non-array, and an array
    whose length is not the number of schemas, get a "tuple" error with an
    empty path, whatever the elements are; on an array of the right length,
    the schemas accepting their positions in turn give the array of their
    results; the first position to fail after the earlier ones passed gives
    its error with [path] made of the index, as a string, followed by the
    path the error had, and with its other fields as they were; a schema
    that throws on its position after the earlier ones passed makes the
    tuple throw.  Every array of the right length is one of the three. *)
Theorem tuple_parse (first : Schema) (rest : list Schema)
    (msg : option string) (data : Value) (h : Heap) :
  (isArray data = false
   \/ length (elements data) <> length (first :: rest) ->
   parse (STuple first rest msg) data h
   = (Return (Err (err "tuple" data msg)), h)
   /\ path (err "tuple" data msg) = [])
  /\ (forall items,
        data = VArr items ->
        length items = length (first :: rest) ->
        (forall out h',
           accepts_positions items 0 (first :: rest) h out h' ->
           parse (STuple first rest msg) data h = (Return (Ok (VArr out)), h')
           /\ length out = length items)
        /\ (forall before schema after out h1 e h2,
              first :: rest = before ++ schema :: after ->
              accepts_positions items 0 before h out h1 ->
              parse schema (nth (length before) items VUndefined) h1
              = (Return (Err e), h2) ->
              parse (STuple first rest msg) data h
              = (Return (Err {| actual := actual e;
                                expected := expected e;
                                message := message e;
                                path := toString (length before) :: path e;
                                value := value e |}), h2))
        /\ (forall before schema after out h1 ex h2,
              first :: rest = before ++ schema :: after ->
              accepts_positions items 0 before h out h1 ->
              parse schema (nth (length before) items VUndefined) h1
              = (Throw ex, h2) ->
              parse (STuple first rest msg) data h = (Throw ex, h2))
        /\ ((exists out h', accepts_positions items 0 (first :: rest) h out h')
            \/ (exists before schema after out h1 r h2,
                  first :: rest = before ++ schema :: after
                  /\ accepts_positions items 0 before h out h1
                  /\ parse schema (nth (length before) items VUndefined) h1
                     = (r, h2)
                  /\ accepted r = false))).
Proof.
  split.
  - intros Hbad. split; [|reflexivity]. cbn [parse].
    destruct (isArray data) eqn:Harr; simpl; [|reflexivity].
    destruct Hbad as [Hno|Hlen]; [discriminate|].
    apply Nat.eqb_neq in Hlen. simpl in Hlen. now rewrite Hlen.
  - intros items -> Hlen.
    assert (Hgo : parse (STuple first rest msg) (VArr items) h
                  = tuple_loop (map parse (first :: rest)) 0 items [] h).
    { cbn [parse isArray elements negb orb]. now rewrite Hlen, Nat.eqb_refl. }
    split; [|split; [|split]].
    + intros out h' Hall. split.
      * rewrite Hgo. exact (tuple_loop_accepts _ _ _ [] _ _ _ Hall).
      * rewrite (accepts_positions_length _ _ _ _ _ _ Hall). now rewrite Hlen.
    + intros before schema after out h1 e h2 Heq Hall He.
      rewrite Hgo, Heq.
      exact (tuple_loop_rejects _ _ _ after 0 [] _ _ _ _ _ Hall He).
    + intros before schema after out h1 ex h2 Heq Hall He.
      rewrite Hgo, Heq.
      exact (tuple_loop_throws _ _ _ after 0 [] _ _ _ _ _ Hall He).
    + exact (accepts_positions_or_not items (first :: rest) 0 h).
Qed.

(** *** [record] *)

Lemma record_loop_accepts key value data keys :
  forall obj h out h',
    accepts_entries key value data keys h out h' ->
    record_loop (parse key) (parse value) keys data obj h
    = (Return (Ok (VObj (record_object obj out))), h').
Proof.
  induction keys as [|k keys IH]; intros obj h out h' Hall;
    inversion Hall as [|? ? ? k' h1 v h2 out' ? Hk Hv Hconv Hrest]; subst; simpl.
  - reflexivity.
  - unfold bind. rewrite Hk, Hv, Hconv. exact (IH _ _ _ _ Hrest).
Qed.

(** What stops a record at the entry under [k], reached in heap [h1]:
    the key schema fails or throws, the value schema does, or the
    assignment under the validated key throws. *)
Lemma record_loop_stops key value data before :
  forall k after obj h out h1,
    accepts_entries key value data before h out h1 ->
    (forall e h2,
       parse key (VStr k) h1 = (Return (Err e), h2) ->
       record_loop (parse key) (parse value) (before ++ k :: after) data obj h
       = (Return (Err (with_segment k e)), h2))
    /\ (forall k' h2 e h3,
          parse key (VStr k) h1 = (Return (Ok k'), h2) ->
          parse value (get data k) h2 = (Return (Err e), h3) ->
          record_loop (parse key) (parse value) (before ++ k :: after) data obj h
          = (Return (Err (with_segment k e)), h3))
    /\ (forall ex h2,
          parse key (VStr k) h1 = (Throw ex, h2) ->
          record_loop (parse key) (parse value) (before ++ k :: after) data obj h
          = (Throw ex, h2))
    /\ (forall k' h2 ex h3,
          parse key (VStr k) h1 = (Return (Ok k'), h2) ->
          parse value (get data k) h2 = (Throw ex, h3) ->
          record_loop (parse key) (parse value) (before ++ k :: after) data obj h
          = (Throw ex, h3))
    /\ (forall k' h2 v h3 ex,
          parse key (VStr k) h1 = (Return (Ok k'), h2) ->
          parse value (get data k) h2 = (Return (Ok v), h3) ->
          cannot_convert k' = Some ex ->
          record_loop (parse key) (parse value) (before ++ k :: after) data obj h
          = (Throw ex, h3)).
Proof.
  induction before as [|b before IH]; intros k after obj h out h1 Hall;
    inversion Hall as [|? ? ? b' h0 v h0' out' ? Hk Hv Hconv Hrest]; subst; simpl.
  - repeat split.
    + intros e h2 He. unfold bind. now rewrite He.
    + intros k' h2 e h3 Hk' He. unfold bind. now rewrite Hk', He.
    + intros ex h2 He. unfold bind. now rewrite He.
    + intros k' h2 ex h3 Hk' He. unfold bind. now rewrite Hk', He.
    + intros k' h2 v h3 ex Hk' Hv' Hex. unfold bind. now rewrite Hk', Hv', Hex.
  - unfold bind. rewrite Hk, Hv, Hconv. exact (IH _ _ _ _ _ _ Hrest).
Qed.

(** X2.  [record(key, value).parse(data)] on a plain object visits the
    keys of the input in order.  For each it runs the key schema on the key
    and then the value schema on [data[k]]; the first failure of either,
    after the earlier entries passed, is returned with [path] made of the
    key as it stands in the input followed by the path the error had, and
    with its other fields as they were; a failing key schema keeps the
    value schema from running.  When all pass, the result is the object
    holding each validated value under its validated key.  The call throws
    when one of the two schemas does, and when a validated key is an object
    that cannot be turned into a property name.  A value that is no plain
    object gets a "record" error. *)
Theorem record_parse (key_schema value_schema : Schema) (msg : option string)
    (data : Value) (h : Heap) :
  (isPlainObject data = false ->
   parse (SRecord key_schema value_schema msg) data h
   = (Return (Err (err "record" data msg)), h))
  /\ (isPlainObject data = true ->
      (forall out h',
         accepts_entries key_schema value_schema data (keys_of data) h out h' ->
         parse (SRecord key_schema value_schema msg) data h
         = (Return (Ok (VObj (record_object [] out))), h'))
      /\ (forall before k after out h1 e h2,
            keys_of data = before ++ k :: after ->
            accepts_entries key_schema value_schema data before h out h1 ->
            parse key_schema (VStr k) h1 = (Return (Err e), h2) ->
            parse (SRecord key_schema value_schema msg) data h
            = (Return (Err {| actual := actual e;
                              expected := expected e;
                              message := message e;
                              path := k :: path e;
                              value := value e |}), h2))
      /\ (forall before k after out h1 k' h2 e h3,
            keys_of data = before ++ k :: after ->
            accepts_entries key_schema value_schema data before h out h1 ->
            parse key_schema (VStr k) h1 = (Return (Ok k'), h2) ->
            parse value_schema (get data k) h2 = (Return (Err e), h3) ->
            parse (SRecord key_schema value_schema msg) data h
            = (Return (Err {| actual := actual e;
                              expected := expected e;
                              message := message e;
                              path := k :: path e;
                              value := value e |}), h3))
      /\ (forall before k after out h1 ex h2,
            keys_of data = before ++ k :: after ->
            accepts_entries key_schema value_schema data before h out h1 ->
            parse key_schema (VStr k) h1 = (Throw ex, h2) ->
            parse (SRecord key_schema value_schema msg) data h = (Throw ex, h2))
      /\ (forall before k after out h1 k' h2 ex h3,
            keys_of data = before ++ k :: after ->
            accepts_entries key_schema value_schema data before h out h1 ->
            parse key_schema (VStr k) h1 = (Return (Ok k'), h2) ->
            parse value_schema (get data k) h2 = (Throw ex, h3) ->
            parse (SRecord key_schema value_schema msg) data h = (Throw ex, h3))
      /\ (forall before k after out h1 k' h2 v h3 ex,
            keys_of data = before ++ k :: after ->
            accepts_entries key_schema value_schema data before h out h1 ->
            parse key_schema (VStr k) h1 = (Return (Ok k'), h2) ->
            parse value_schema (get data k) h2 = (Return (Ok v), h3) ->
            cannot_convert k' = Some ex ->
            parse (SRecord key_schema value_schema msg) data h = (Throw ex, h3))).
Proof.
  split.
  - intros Hno. simpl. now rewrite Hno.
  - intros Hplain.
    assert (Hgo : parse (SRecord key_schema value_schema msg) data h
                  = record_loop (parse key_schema) (parse value_schema) (keys_of data) data [] h).
    { simpl. now rewrite Hplain. }
    repeat split.
    + intros out h' Hall. rewrite Hgo. now apply record_loop_accepts.
    + intros before k after out h1 e h2 Heq Hall He. rewrite Hgo, Heq.
      exact (proj1 (record_loop_stops _ _ _ _ k after [] _ _ _ Hall) _ _ He).
    + intros before k after out h1 k' h2 e h3 Heq Hall Hk He. rewrite Hgo, Heq.
      exact (proj1 (proj2 (record_loop_stops _ _ _ _ k after [] _ _ _ Hall))
               _ _ _ _ Hk He).
    + intros before k after out h1 ex h2 Heq Hall He. rewrite Hgo, Heq.
      exact (proj1 (proj2 (proj2 (record_loop_stops _ _ _ _ k after [] _ _ _ Hall)))
               _ _ He).
    + intros before k after out h1 k' h2 ex h3 Heq Hall Hk He. rewrite Hgo, Heq.
      exact (proj1 (proj2 (proj2 (proj2
               (record_loop_stops _ _ _ _ k after [] _ _ _ Hall))))
               _ _ _ _ Hk He).
    + intros before k after out h1 k' h2 v h3 ex Heq Hall Hk Hv Hex.
      rewrite Hgo, Heq.
      exact (proj2 (proj2 (proj2 (proj2
               (record_loop_stops _ _ _ _ k after [] _ _ _ Hall))))
               _ _ _ _ _ Hk Hv Hex).
Qed.

Lemma lookup_field_app_fresh done k v rest :
  ~ In k (map fst done) ->
  lookup_field (done ++ (k, v) :: rest) k = Some v.
Proof.
  induction done as [|[k0 v0] done IH]; simpl; intros Hfresh.
  - now rewrite String.eqb_refl.
  - destruct (String.eqb k0 k) eqn:E.
    + apply String.eqb_eq in E. tauto.
    + apply IH. tauto.
Qed.

Lemma record_loop_copies m rest :
  forall done h,
    List.NoDup (map fst (done ++ rest)) ->
    record_loop (parse (SStr m)) (parse SAny) (map fst rest)
      (VObj (done ++ rest)) done h
    = (Return (Ok (VObj (done ++ rest))), h).
Proof.
  induction rest as [|[k v] rest IH]; intros done h Hnd.
  - simpl. now rewrite app_nil_r.
  - assert (Hfresh : ~ In k (map fst done)).
    { rewrite map_app in Hnd. simpl in Hnd.
      pose proof (NoDup_remove_2 _ _ _ Hnd) as Hnot.
      intros Hin. apply Hnot. apply in_or_app. now left. }
    cbn [map fst record_loop parse isString]. unfold bind, ret.
    cbn [get]. rewrite (lookup_field_app_fresh _ _ _ _ Hfresh).
    cbn [cannot_convert property_key]. rewrite (set_fresh _ _ _ Hfresh).
    replace (done ++ (k, v) :: rest) with ((done ++ [(k, v)]) ++ rest)
      by now rewrite <- app_assoc.
    apply IH. now rewrite <- app_assoc.
Qed.

(** X3.  [record(str(), any())] hands back a plain object as it is: the
    same keys in the same order with the same values, and the heap
    untouched. *)
Theorem record_of_any_copies (m message : option string)
    (fields : list (string * Value)) (h : Heap) :
  List.NoDup (map fst fields) ->
  parse (SRecord (SStr m) SAny message) (VObj fields) h = (Return (Ok (VObj fields)), h).
Proof.
  intros Hnd. simpl.
  exact (record_loop_copies m fields [] h Hnd).
Qed.

(** *** Nested unions and nested pipelines *)




Lemma pipe_loop_app (front back : list Pipe) :
  forall acc,
    pipe_loop (front ++ back) acc
    = match pipe_loop front acc with
      | Ok v => pipe_loop back v
      | Err e => Err e
      end.
Proof.
  induction front as [|p front IH]; intros acc; simpl.
  - reflexivity.
  - destruct (p acc) as [v|msg]; [apply IH | reflexivity].
Qed.

(** X5.  A pipeline over a pipeline is the pipeline of all the steps:
    [pipe(pipe(schema, ...front), ...back)] and
    [pipe(schema, ...front, ...back)] return the same result, errors
    included, on every input. *)
Theorem pipe_nested (schema : Schema) (front back : list Pipe)
    (data : Value) (h : Heap) :
  parse (SPipe (SPipe schema front) back) data h
  = parse (SPipe schema (front ++ back)) data h.
Proof.
  simpl. unfold bind, ret.
  destruct (parse schema data h) as [[ex|[v|e]] h1]; try reflexivity.
  now rewrite pipe_loop_app.
Qed.

(** *** What every delivered error satisfies *)

Lemma pipe_loop_err pipeline :
  forall acc e,
    pipe_loop pipeline acc = Err e ->
    exists acc' msg, e = err "pipe" acc' (Some msg).
Proof.
  induction pipeline as [|p pipeline IH]; intros acc e; simpl.
  - discriminate.
  - destruct (p acc) as [v|msg].
    + apply IH.
    + intros [= <-]. now exists acc, msg.
Qed.

Lemma originates_err s data h e h' :
  originates s = true ->
  parse s data h = (Return (Err e), h') ->
  exists expected v message, e = err expected v message.
Proof.
  destruct s; try discriminate; intros _; simpl.
  - destruct (isString data); intros [= <- <-]; eauto.
  - destruct (isNumber data); intros [= <- <-]; eauto.
  - destruct (isBoolean data); intros [= <- <-]; eauto.
  - destruct (isDate data); [discriminate | intros [= <- <-]; eauto].
  - intros He. rewrite (union_err _ _ _ _ _ _ _ He). eauto.
  - destruct (includes values data); intros [= <- <-]; eauto.
  - destruct (includes (map PStr values) data); [discriminate|].
    unfold bind. destruct (nullish_assign _ _ _ h) as [[ex|m] h1]; [discriminate|].
    intros [= <- <-]. eauto.
  - match goal with
    | |- context [strict_equals ?d ?v] => destruct (strict_equals d v)
    end; [discriminate|].
    unfold bind. destruct (nullish_assign _ _ _ h) as [[ex|m] h1]; [discriminate|].
    intros [= <- <-]. eauto.
Qed.

Section Error_invariant.
Variable Q : ParseError -> Prop.
Hypothesis Q_err : forall expected v message, Q (err expected v message).
Hypothesis Q_segment : forall segment e, Q e -> Q (with_segment segment e).

Lemma parse_err_invariant (s : Schema) :
  forall data h e h', parse s data h = (Return (Err e), h') -> Q e.
Proof using Q_err Q_segment.
  induction s as
    [ | message | message | message | message
    | schema message IH
    | props message IH
    | key value message IHkey IHvalue
    | first rest message IHfirst IHrest
    | first rest message IHfirst IHrest
    | values message | values message cell | lit message cell
    | schema IH
    | schema defaultValue message IH
    | schema pipeline IH
    | schema mapper IH
    | schema hook IH ] using Schema_nested_ind;
    intros data h e h' Hp;
    try (destruct (fun Ho => originates_err _ _ _ _ _ Ho Hp)
           as (ex & v & m & ->); [reflexivity | apply Q_err]).
  - discriminate.
  - destruct (parse_list_err _ _ _ _ _ _ Hp) as [->|(i & d & e0 & hi & _ & He0 & ->)].
    + apply Q_err.
    + apply Q_segment. eapply IH; exact He0.
  - destruct (parse_obj_err _ _ _ _ _ _ Hp)
      as [->|(key & schema & e0 & hi & Hin & He0 & ->)].
    + apply Q_err.
    + apply Q_segment. rewrite List.Forall_forall in IH.
      exact (IH _ Hin _ _ _ _ He0).
  - destruct (parse_record_err _ _ _ _ _ _ _ Hp)
      as [->|(k & e0 & hi & _ & [He0|He0] & ->)].
    + apply Q_err.
    + apply Q_segment. eapply IHkey; exact He0.
    + apply Q_segment. eapply IHvalue; exact He0.
  - destruct (parse_tuple_err _ _ _ _ _ _ _ Hp)
      as [->|(i & schema & e0 & hi & Hi & He0 & ->)].
    + apply Q_err.
    + apply Q_segment. destruct i as [|i]; simpl in Hi.
      * injection Hi as <-. eapply IHfirst; exact He0.
      * exact (Forall_lookup_1 _ _ _ _ IHrest Hi _ _ _ _ He0).
  - simpl in Hp. destruct (isNil data); [discriminate|].
    unfold bind in Hp. destruct (parse schema data h) as [[ex|[v|e0]] h1] eqn:Hs; [discriminate| |].
    + discriminate.
    + injection Hp as <- <-. eapply IH; exact Hs.
  - simpl in Hp. destruct (isNil data); [discriminate|].
    eapply IH; exact Hp.
  - simpl in Hp. unfold bind, ret in Hp.
    destruct (parse schema data h) as [[ex|[v|e0]] h1] eqn:Hs; [discriminate| |].
    + injection Hp as Hloop <-.
      destruct (pipe_loop_err _ _ _ Hloop) as (acc & msg & ->). apply Q_err.
    + injection Hp as <- <-. eapply IH; exact Hs.
  - simpl in Hp. unfold bind, ret in Hp.
    destruct (parse schema data h) as [[ex|[v|e0]] h1] eqn:Hs; [discriminate| |].
    + destruct (mapper v) as [u|m]; [discriminate|].
      injection Hp as <- <-. apply Q_err.
    + injection Hp as <- <-. eapply IH; exact Hs.
  - simpl in Hp. unfold bind in Hp.
    destruct (hook data h) as [[ex|data'] h1]; [discriminate|].
    eapply IH; exact Hp.
Qed.

End Error_invariant.

(** X6.  In every error that [parse] delivers, whatever the schema, [actual]
    is the type name of the reported [value]. *)
Theorem error_actual_is_type_of_value (s : Schema) (data : Value) (h : Heap)
    (e : ParseError) (h' : Heap) :
  parse s data h = (Return (Err e), h') -> actual e = getTypeOf (value e).
Proof.
  apply (parse_err_invariant (fun e => actual e = getTypeOf (value e))).
  - reflexivity.
  - intros segment e0 He0. exact He0.
Qed.

Lemma err_message_not_empty expected v (msg : option string) :
  message (err expected v msg) <> "".
Proof.
  unfold err. cbn [message].
  destruct msg as [m|]; [|discriminate].
  destruct (String.eqb m "") eqn:E; [discriminate|].
  now apply String.eqb_neq in E.
Qed.

(** X7.  No error that [parse] delivers has an empty message: where a
    schema or a step supplies the empty string, the default text stands in
    its place. *)
Theorem error_message_never_empty (s : Schema) (data : Value) (h : Heap)
    (e : ParseError) (h' : Heap) :
  parse s data h = (Return (Err e), h') -> message e <> "".
Proof.
  apply (parse_err_invariant (fun e => message e <> "")).
  - apply err_message_not_empty.
  - intros segment e0 He0. exact He0.
Qed.

(** *** What [as] builds *)

Lemma as_by_tag (schema other : Schema) :
  type_of other = type_of schema ->
  (forall e, as_ other = Throw e <-> as_ schema = Throw e)
  /\ (forall hook, as_ other = Return (SPre other hook)
                   <-> as_ schema = Return (SPre schema hook)).
Proof.
  intros Htag. unfold as_, pre. rewrite Htag.
  destruct (String.eqb (type_of schema) "number");
    [split; intros; split; intros [= ->]; reflexivity|].
  destruct (String.eqb (type_of schema) "string");
    [split; intros; split; intros [= ->]; reflexivity|].
  destruct (String.eqb (type_of schema) "boolean");
    [split; intros; split; intros [= ->]; reflexivity|].
  destruct (String.eqb (type_of schema) "date");
    [split; intros; split; intros [= ->]; reflexivity|].
  split; intros; split; intros [= <-]; reflexivity.
Qed.

(** X8.  [as] goes by the type tag alone.  A pipeline, an optional and a
    default carry tags of their own, so [as(pipe(...))], [as(opt(...))] and
    [as(def(...))] throw even over a number or a string schema; [map] keeps
    the tag of the schema it maps, so [as(map(schema, f))] is built, with
    the same cast, exactly when [as(schema)] is; and what [as] returns keeps
    the tag, so [as] can be applied to it again. *)
Theorem as_goes_by_tag (schema : Schema) :
  (forall pipeline,
     as_ (SPipe schema pipeline)
     = Throw (mkError ("Cannot coerce " ++ quote ++ "pipe" ++ quote
                         ++ " to a primitive type")))
  /\ as_ (SOpt schema)
     = Throw (mkError ("Cannot coerce " ++ quote ++ "optional" ++ quote
                         ++ " to a primitive type"))
  /\ (forall defaultValue message,
        as_ (SDef schema defaultValue message)
        = Throw (mkError ("Cannot coerce " ++ quote ++ "default" ++ quote
                            ++ " to a primitive type")))
  /\ (forall mapper,
        (forall e, as_ (SMap schema mapper) = Throw e <-> as_ schema = Throw e)
        /\ (forall hook,
              as_ (SMap schema mapper) = Return (SPre (SMap schema mapper) hook)
              <-> as_ schema = Return (SPre schema hook)))
  /\ (forall built,
        as_ schema = Return built ->
        type_of built = type_of schema
        /\ exists hook, as_ built = Return (SPre built hook)).
Proof.
  split; [reflexivity|]. split; [reflexivity|]. split; [reflexivity|].
  split; [intros mapper; now apply as_by_tag|].
  intros built Hbuilt.
  assert (Htag : type_of built = type_of schema).
  { revert Hbuilt. unfold as_, pre.
    repeat match goal with
           | |- context [if ?c then _ else _] => destruct c
           end; intros [= <-]; reflexivity. }
  split; [exact Htag|].
  assert (Hshape : exists hook, as_ schema = Return (SPre schema hook)).
  { revert Hbuilt. unfold as_, pre.
    repeat match goal with
           | |- context [if ?c then _ else _] => destruct c
           end; intros [= <-]; eauto. }
  destruct Hshape as (hook & Hhook). exists hook.
  now apply (proj2 (as_by_tag schema built Htag) hook).
Qed.

(** X9.  [as(str())] returns no error: it accepts every input that
    [String] converts, returning [String(data)], and on an object that
    [String] cannot convert the call throws the [TypeError] of the
    conversion.  [as(bool())] accepts every input and returns a boolean.
    Neither touches the heap, and the message they were built with is
    never used. *)
Theorem as_str_bool_parse (message : option string) (data : Value)
    (h : Heap) :
  (exists built,
     as_ (SStr message) = Return built
     /\ parse built data h
        = match cannot_convert data with
          | Some ex => (Throw ex, h)
          | None => (Return (Ok (VStr (String_ data))), h)
          end)
  /\ (exists built b,
        as_ (SBool message) = Return built
        /\ parse built data h = (Return (Ok (VBool b)), h)
        /\ (forall s, data = VStr s ->
              b = existsb (String.eqb (toLowerCase s)) ["true"; "1"; "yes"; "on"])
        /\ (isString data = false -> b = Boolean data)).
Proof.
  split.
  - eexists. split; [reflexivity|].
    cbn [pre parse]. unfold bind, tryStr.
    now destruct (cannot_convert data).
  - destruct data as [| |b|n|s|ref time|items|fields|name|items| |v];
      eexists _, _; (split; [reflexivity|]); (split; [reflexivity|]);
      split; first [discriminate | reflexivity | intros ? [= <-]; reflexivity
                   | intros; reflexivity].
Qed.

(** X10.  [as(date())] on [NaN] fails, and on an integer-valued number it
    succeeds exactly when the number is a time value (at most 8.64e15 in
    absolute value); the numbers of the model are these, and nothing is
    said of a number with a fraction.  On a string it succeeds exactly
    when the string parses as a date.  Either way the cast makes one
    date object and [date] a second one, which is returned.  When the
    string does not parse, the error carries the invalid date the cast made,
    not the string.  Any other input goes to [date] as it is. *)
Theorem as_date_parse (message : option string) (h : Heap) :
  exists built,
    as_ (SDate message) = Return built
    /\ (forall n,
          accepted (fst (parse built (VNum n) h)) = true
          <-> exists z, n = Num z /\ (Z.abs z <= 8640000000000000)%Z)
    /\ (forall s,
          accepted (fst (parse built (VStr s) h)) = true
          <-> exists t, Date_parse s = Some t)
    /\ (forall s t,
          Date_parse s = Some t ->
          parse built (VStr s) h
          = (Return (Ok (VDate (S (next_ref h)) (Some t))),
             {| next_ref := S (S (next_ref h)); cells := cells h |}))
    /\ (forall s,
          Date_parse s = None ->
          parse built (VStr s) h
          = (Return (Err (err "date" (VDate (next_ref h) None) message)),
             {| next_ref := S (next_ref h); cells := cells h |}))
    /\ (forall data,
          isString data = false -> isNumber data = false ->
          parse built data h = parse (SDate message) data h).
Proof.
  eexists. split; [reflexivity|].
  split; [|split; [|split; [|split]]].
  - intros [|z]; simpl.
    + split; [discriminate | intros (z & [=] & _)].
    + destruct (Z.leb (Z.abs z) 8640000000000000) eqn:E; simpl.
      * split; [|reflexivity]. intros _. exists z. split; [reflexivity|].
        now apply Z.leb_le.
      * split; [discriminate|]. intros (z' & [= <-] & Hle).
        apply Z.leb_le in Hle. congruence.
  - intros s. simpl. destruct (Date_parse s) as [t|]; simpl.
    + split; [intros _; now exists t | reflexivity].
    + split; [discriminate | intros (t & [=])].
  - intros s t Hs. simpl. unfold bind, new_Date. simpl. now rewrite Hs.
  - intros s Hs. simpl. unfold bind, new_Date. simpl. now rewrite Hs.
  - intros data Hs Hn. destruct data; try discriminate; reflexivity.
Qed.

(** *** [lit] and [enum] on [NaN] *)

(** X11.  [lit] compares with [===], under which [NaN] differs from
    itself: a schema [lit(NaN)] rejects every input, [NaN] included.  [enum]
    and [oneOf] search with [includes], which finds [NaN]: an enum with a
    [NaN] member accepts [NaN]. *)
Theorem NaN_literal_and_member :
  (forall message cell data h,
     rejected (fst (parse (SLit (PNum NaN) message cell) data h)) = true)
  /\ (forall (e : Enum) key message h,
        In (key, PNum NaN) e ->
        parse (_enum e message) (VNum NaN) h = (Return (Ok (VNum NaN)), h)).
Proof.
  split.
  - intros message cell data h. cbn [parse].
    replace (strict_equals data (PNum NaN)) with false
      by (destruct data as [| | |[|z]| | | | | | | |]; reflexivity).
    unfold bind.
    match goal with
    | |- context [nullish_assign ?c ?m ?fb h] =>
        destruct (nullish_assign_returns c m fb h) as (m' & h1 & ->)
    end. reflexivity.
  - intros e key message h Hin. simpl.
    replace (includes (Object_values e) (VNum NaN)) with true; [reflexivity|].
    symmetry. apply includes_member. now exists key, (PNum NaN).
Qed.

(** *** Properties of all the schemas a schema is built from *)

Lemma every_here (P : Schema -> Prop) (s : Schema) : every P s -> P s.
Proof. destruct s; simpl; tauto. Qed.

Lemma every_obj (P : Schema -> Prop) props message :
  every P (SObj props message)
  <-> P (SObj props message) /\ Forall (fun p => every P (snd p)) props.
Proof.
  cbn [every]. apply and_iff_compat_l.
  induction props as [|p props IH].
  - split; [constructor | trivial].
  - rewrite IH. split.
    + intros [Hp Hps]. now constructor.
    + intros Hall. inversion Hall; subst. now split.
Qed.

Lemma every_children (P : Schema -> Prop) (rest : list Schema) :
  (fix each (ss : list Schema) : Prop :=
     match ss with
     | [] => True
     | s' :: ss' => every P s' /\ each ss'
     end) rest
  <-> Forall (every P) rest.
Proof.
  induction rest as [|s rest IH].
  - split; [constructor | trivial].
  - rewrite IH. split.
    + intros [Hs Hrest]. now constructor.
    + intros Hall. inversion Hall; subst. now split.
Qed.

Lemma every_union (P : Schema -> Prop) first rest message :
  every P (SUnion first rest message)
  <-> P (SUnion first rest message) /\ every P first /\ Forall (every P) rest.
Proof. cbn [every]. now rewrite every_children. Qed.

Lemma every_tuple (P : Schema -> Prop) first rest message :
  every P (STuple first rest message)
  <-> P (STuple first rest message) /\ every P first /\ Forall (every P) rest.
Proof. cbn [every]. now rewrite every_children. Qed.

Lemma every_and (P Q : Schema -> Prop) (s : Schema) :
  every P s -> every Q s -> every (fun s' => P s' /\ Q s') s.
Proof.
  induction s as
    [ | message | message | message | message
    | schema message IH
    | props message IH
    | key value message IHkey IHvalue
    | first rest message IHfirst IHrest
    | first rest message IHfirst IHrest
    | values message | values message cell | lit message cell
    | schema IH
    | schema defaultValue message IH
    | schema pipeline IH
    | schema mapper IH
    | schema hook IH ] using Schema_nested_ind;
    try (simpl; tauto).
  - rewrite !every_obj. intros [HP HPs] [HQ HQs]. split; [now split|].
    clear - IH HPs HQs. induction props as [|p props IHprops]; [constructor|].
    inversion IH; inversion HPs; inversion HQs; subst.
    constructor; [auto | now apply IHprops].
  - rewrite !every_union. intros (HP & HPf & HPs) (HQ & HQf & HQs).
    split; [now split|]. split; [auto|].
    clear - IHrest HPs HQs. induction rest as [|s rest IHr]; [constructor|].
    inversion IHrest; inversion HPs; inversion HQs; subst.
    constructor; [auto | now apply IHr].
  - rewrite !every_tuple. intros (HP & HPf & HPs) (HQ & HQf & HQs).
    split; [now split|]. split; [auto|].
    clear - IHrest HPs HQs. induction rest as [|s rest IHr]; [constructor|].
    inversion IHrest; inversion HPs; inversion HQs; subst.
    constructor; [auto | now apply IHr].
Qed.

(** *** What [parse] does to the heap *)

Section Heap_discipline.
Variable H : Heap -> Heap -> Prop.
Variable N : Schema -> Prop.
Hypothesis H_refl : forall h, H h h.
Hypothesis H_trans : forall a b c, H a b -> H b c -> H a c.
Hypothesis H_date : forall time h, H h (snd (new_Date time h)).
Hypothesis H_oneOf : forall values message cell,
  N (SOneOf values message cell) ->
  forall fallback h, H h (snd (nullish_assign cell message fallback h)).
Hypothesis H_lit : forall lit message cell,
  N (SLit lit message cell) ->
  forall fallback h, H h (snd (nullish_assign cell message fallback h)).
Hypothesis H_hook : forall schema hook,
  N (SPre schema hook) -> forall data h, H h (snd (hook data h)).

Definition keeps (p : Parser) : Prop := forall data h, H h (snd (p data h)).

Lemma list_loop_keeps (p : Parser) :
  keeps p -> forall data i arr h, H h (snd (list_loop p i data arr h)).
Proof using H_refl H_trans.
  intros Hp. induction data as [|d data IH]; intros i arr h; cbn [list_loop ret].
  - apply H_refl.
  - unfold bind. generalize (Hp d h).
    destruct (p d h) as [[ex|[v|e]] h1]; cbn [fst snd]; intros Hd;
      cbn [fst snd] in *; [exact Hd| |].
    + eapply H_trans; [exact Hd | apply IH].
    + exact Hd.
Qed.

Lemma tuple_loop_keeps (ps : list Parser) :
  Forall keeps ps -> forall data i arr h, H h (snd (tuple_loop ps i data arr h)).
Proof using H_refl H_trans.
  induction 1 as [|p ps Hp _ IH]; intros data i arr h; cbn [tuple_loop ret].
  - apply H_refl.
  - unfold bind. generalize (Hp (nth i data VUndefined) h).
    destruct (p (nth i data VUndefined) h) as [[ex|[v|e]] h1]; cbn [fst snd]; intros Hd;
      cbn [fst snd] in *; [exact Hd| |].
    + eapply H_trans; [exact Hd | apply IH].
    + exact Hd.
Qed.

Lemma obj_loop_keeps (ps : list (string * Parser)) :
  Forall (fun kp => keeps (snd kp)) ps ->
  forall data obj h, H h (snd (obj_loop ps data obj h)).
Proof using H_refl H_trans.
  induction 1 as [|[key p] ps Hp _ IH]; intros data obj h; cbn [obj_loop ret].
  - apply H_refl.
  - cbn [snd] in Hp. unfold bind. generalize (Hp (get data key) h).
    destruct (p (get data key) h) as [[ex|[v|e]] h1]; cbn [fst snd]; intros Hd;
      cbn [fst snd] in *; [exact Hd| |].
    + eapply H_trans; [exact Hd | apply IH].
    + exact Hd.
Qed.

Lemma record_loop_keeps (key value : Parser) :
  keeps key -> keeps value ->
  forall keys data obj h, H h (snd (record_loop key value keys data obj h)).
Proof using H_refl H_trans.
  intros Hkey Hvalue. induction keys as [|k keys IH]; intros data obj h; cbn [record_loop ret].
  - apply H_refl.
  - unfold bind. generalize (Hkey (VStr k) h).
    destruct (key (VStr k) h) as [[ex|[k'|e]] h1]; cbn [fst snd]; intros Hk;
      cbn [fst snd] in *; [exact Hk| |exact Hk].
    generalize (Hvalue (get data k) h1).
    destruct (value (get data k) h1) as [[ex|[v|e]] h2]; cbn [fst snd]; intros Hv;
      cbn [fst snd] in *.
    + eapply H_trans; [exact Hk | exact Hv].
    + destruct (cannot_convert k'); cbn [throw snd].
      * eapply H_trans; [exact Hk | exact Hv].
      * eapply H_trans; [exact Hk|]. eapply H_trans; [exact Hv | apply IH].
    + eapply H_trans; [exact Hk | exact Hv].
Qed.

Lemma union_loop_keeps (ps : list Parser) :
  Forall keeps ps -> forall data h, H h (snd (union_loop ps data h)).
Proof using H_refl H_trans.
  induction 1 as [|p ps Hp _ IH]; intros data h; cbn [union_loop ret].
  - apply H_refl.
  - unfold bind. generalize (Hp data h).
    destruct (p data h) as [[ex|[v|e]] h1]; cbn [fst snd]; intros Hd;
      cbn [fst snd] in *; [exact Hd| |].
    + exact Hd.
    + eapply H_trans; [exact Hd | apply IH].
Qed.

Lemma parse_keeps (s : Schema) : every N s -> keeps (parse s).
Proof using H_refl H_trans H_date H_oneOf H_lit H_hook.
  induction s as
    [ | message | message | message | message
    | schema message IH
    | props message IH
    | key value message IHkey IHvalue
    | first rest message IHfirst IHrest
    | first rest message IHfirst IHrest
    | values message | values message cell | lit message cell
    | schema IH
    | schema defaultValue message IH
    | schema pipeline IH
    | schema mapper IH
    | schema hook IH ] using Schema_nested_ind;
    intros Hevery data h.
  - apply H_refl.
  - simpl. destruct (isString data); apply H_refl.
  - simpl. destruct (isNumber data); apply H_refl.
  - simpl. destruct (isBoolean data); apply H_refl.
  - simpl. destruct (isDate data); [|apply H_refl].
    unfold bind. generalize (H_date (time_value data) h).
    now destruct (new_Date (time_value data) h) as [[ex|d] h1].
  - simpl. destruct (isArray data); simpl; [|apply H_refl].
    apply list_loop_keeps. apply IH. apply Hevery.
  - apply every_obj in Hevery. destruct Hevery as [_ Hall].
    simpl. destruct (isPlainObject data); simpl; [|apply H_refl].
    apply obj_loop_keeps.
    clear - IH Hall. induction props as [|p props IHprops]; [constructor|].
    inversion IH; inversion Hall; subst.
    constructor; [simpl; auto | now apply IHprops].
  - destruct Hevery as (_ & Hk & Hv).
    simpl. destruct (isPlainObject data); simpl; [|apply H_refl].
    apply record_loop_keeps; auto.
  - apply every_union in Hevery. destruct Hevery as (_ & Hf & Hall).
    rewrite union_unfold.
    assert (Hps : Forall keeps (map parse (first :: rest))).
    { constructor; [auto|]. clear - IHrest Hall.
      induction rest as [|s rest IHr]; [constructor|].
      inversion IHrest; inversion Hall; subst.
      constructor; [auto | now apply IHr]. }
    unfold bind. generalize (union_loop_keeps _ Hps data h).
    now destruct (union_loop (map parse (first :: rest)) data h)
      as [[ex|[r|]] h1].
  - apply every_tuple in Hevery. destruct Hevery as (_ & Hf & Hall).
    cbn [parse].
    destruct (negb (isArray data)
              || negb (Nat.eqb (length (elements data)) (length (first :: rest))));
      [apply H_refl|].
    apply (tuple_loop_keeps (map parse (first :: rest))).
    constructor; [auto|]. clear - IHrest Hall.
    induction rest as [|s rest IHr]; [constructor|].
    inversion IHrest; inversion Hall; subst.
    constructor; [auto | now apply IHr].
  - simpl. destruct (includes values data); apply H_refl.
  - simpl. destruct (includes (map PStr values) data); [apply H_refl|].
    unfold bind.
    match goal with
    | |- context [nullish_assign ?c ?m ?fb ?h0] =>
        generalize (H_oneOf _ _ _ (every_here _ _ Hevery) fb h0);
        now destruct (nullish_assign c m fb h0) as [[ex|m'] h1]
    end.
  - simpl.
    match goal with
    | |- context [strict_equals ?d ?v] => destruct (strict_equals d v)
    end; [apply H_refl|].
    unfold bind.
    match goal with
    | |- context [nullish_assign ?c ?m ?fb ?h0] =>
        generalize (H_lit _ _ _ (every_here _ _ Hevery) fb h0);
        now destruct (nullish_assign c m fb h0) as [[ex|m'] h1]
    end.
  - destruct Hevery as [_ Hs]. simpl. destruct (isNil data); [apply H_refl|].
    unfold bind. generalize (IH Hs data h).
    destruct (parse schema data h) as [[ex|[v|e]] h1]; cbn [fst snd]; intros Hd;
      try exact Hd.
  - destruct Hevery as [_ Hs]. simpl. destruct (isNil data); [apply H_refl|].
    apply (IH Hs).
  - destruct Hevery as [_ Hs]. simpl. unfold bind.
    generalize (IH Hs data h).
    destruct (parse schema data h) as [[ex|[v|e]] h1]; cbn [fst snd]; intros Hd;
      try exact Hd.
  - destruct Hevery as [_ Hs]. simpl. unfold bind.
    generalize (IH Hs data h).
    destruct (parse schema data h) as [[ex|[v|e]] h1]; cbn [fst snd]; intros Hd;
      try exact Hd.
  - pose proof (H_hook _ _ (every_here _ _ Hevery) data h) as Hh.
    destruct Hevery as [_ Hs]. simpl. unfold bind.
    destruct (hook data h) as [[ex|data'] h1]; simpl in Hh; [exact Hh|].
    eapply H_trans; [exact Hh | apply (IH Hs)].
Qed.

End Heap_discipline.

(** *** What the heap does to [parse] *)

Lemma nullish_assign_next_ref cell message fallback h :
  next_ref (snd (nullish_assign cell message fallback h)) = next_ref h.
Proof.
  unfold nullish_assign. destruct message; [reflexivity|].
  now destruct (cells h !! cell).
Qed.

Section Heap_dependence.
Variable R : Parsed -> Parsed -> Prop.
Variable N : Schema -> Prop.
Hypothesis R_ok : forall v, R (Ok v) (Ok v).
Hypothesis R_err : forall e, R (Err e) (Err e).
Hypothesis R_sort : forall r1 r2,
  R r1 r2 ->
  match r1, r2 with
  | Ok v1, Ok v2 => v1 = v2
  | Err _, Err _ => True
  | _, _ => False
  end.
Hypothesis R_segment : forall segment e1 e2,
  R (Err e1) (Err e2) ->
  R (Err (with_segment segment e1)) (Err (with_segment segment e2)).
Hypothesis R_oneOf : forall values message cell,
  N (SOneOf values message cell) ->
  forall data fallback h1 m1 h1' h2 m2 h2',
    nullish_assign cell message fallback h1 = (Return m1, h1') ->
    nullish_assign cell message fallback h2 = (Return m2, h2') ->
    R (Err (err "oneOf" data (Some m1))) (Err (err "oneOf" data (Some m2))).
Hypothesis R_lit : forall lit message cell,
  N (SLit lit message cell) ->
  forall data fallback h1 m1 h1' h2 m2 h2',
    nullish_assign cell message fallback h1 = (Return m1, h1') ->
    nullish_assign cell message fallback h2 = (Return m2, h2') ->
    R (Err (err "literal" data (Some m1))) (Err (err "literal" data (Some m2))).
Hypothesis N_hook : forall schema hook,
  N (SPre schema hook) ->
  forall data h1 h2,
    next_ref h1 = next_ref h2 ->
    fst (hook data h1) = fst (hook data h2)
    /\ next_ref (snd (hook data h1)) = next_ref (snd (hook data h2)).

Definition steady (p : Parser) : Prop :=
  forall data h1 h2,
    next_ref h1 = next_ref h2 ->
    same_outcome R (fst (p data h1)) (fst (p data h2))
    /\ next_ref (snd (p data h1)) = next_ref (snd (p data h2)).

Lemma same_outcome_cases r1 r2 :
  same_outcome R r1 r2 ->
  (exists ex, r1 = Throw ex /\ r2 = Throw ex)
  \/ (exists v, r1 = Return (Ok v) /\ r2 = Return (Ok v))
  \/ (exists e1 e2,
        r1 = Return (Err e1) /\ r2 = Return (Err e2) /\ R (Err e1) (Err e2)).
Proof using R_sort.
  destruct r1 as [ex1|[v1|e1]], r2 as [ex2|[v2|e2]]; cbn; try contradiction.
  - intros ->. left. now exists ex2.
  - intros HR. apply R_sort in HR as ->. right. left. now exists v2.
  - intros HR. now apply R_sort in HR.
  - intros HR. now apply R_sort in HR.
  - intros HR. right. right. now exists e1, e2.
Qed.

Ltac both_runs_as Hp p d h1 h2 Hn HR Hn' a b :=
  generalize (Hp d h1 h2 Hn);
  destruct (p d h1) as [? a], (p d h2) as [? b]; cbn [fst snd];
  intros [HR Hn'];
  destruct (same_outcome_cases _ _ HR)
    as [(? & -> & ->)|[(? & -> & ->)|(? & ? & -> & -> & ?)]].

Ltac both_runs Hp p d h1 h2 Hn HR Hn' :=
  generalize (Hp d h1 h2 Hn);
  destruct (p d h1) as [? ?], (p d h2) as [? ?]; cbn [fst snd];
  intros [HR Hn'];
  destruct (same_outcome_cases _ _ HR)
    as [(? & -> & ->)|[(? & -> & ->)|(? & ? & -> & -> & ?)]].

Lemma list_loop_steady (p : Parser) :
  steady p ->
  forall data i arr h1 h2,
    next_ref h1 = next_ref h2 ->
    same_outcome R (fst (list_loop p i data arr h1))
                   (fst (list_loop p i data arr h2))
    /\ next_ref (snd (list_loop p i data arr h1))
       = next_ref (snd (list_loop p i data arr h2)).
Proof using R_ok R_sort R_segment.
  intros Hp. induction data as [|d data IH]; intros i arr h1 h2 Hn;
    cbn [list_loop ret].
  - split; [apply R_ok | exact Hn].
  - unfold bind. both_runs Hp p d h1 h2 Hn HR Hn'.
    + split; [reflexivity | exact Hn'].
    + now apply IH.
    + split; [now apply R_segment | exact Hn'].
Qed.

Lemma tuple_loop_steady (ps : list Parser) :
  Forall steady ps ->
  forall data i arr h1 h2,
    next_ref h1 = next_ref h2 ->
    same_outcome R (fst (tuple_loop ps i data arr h1))
                   (fst (tuple_loop ps i data arr h2))
    /\ next_ref (snd (tuple_loop ps i data arr h1))
       = next_ref (snd (tuple_loop ps i data arr h2)).
Proof using R_ok R_sort R_segment.
  induction 1 as [|p ps Hp _ IH]; intros data i arr h1 h2 Hn;
    cbn [tuple_loop ret].
  - split; [apply R_ok | exact Hn].
  - unfold bind. both_runs Hp p (nth i data VUndefined) h1 h2 Hn HR Hn'.
    + split; [reflexivity | exact Hn'].
    + now apply IH.
    + split; [now apply R_segment | exact Hn'].
Qed.

Lemma obj_loop_steady (ps : list (string * Parser)) :
  Forall (fun kp => steady (snd kp)) ps ->
  forall data obj h1 h2,
    next_ref h1 = next_ref h2 ->
    same_outcome R (fst (obj_loop ps data obj h1)) (fst (obj_loop ps data obj h2))
    /\ next_ref (snd (obj_loop ps data obj h1))
       = next_ref (snd (obj_loop ps data obj h2)).
Proof using R_ok R_sort R_segment.
  induction 1 as [|[key p] ps Hp _ IH]; intros data obj h1 h2 Hn;
    cbn [obj_loop ret].
  - split; [apply R_ok | exact Hn].
  - cbn [snd] in Hp. unfold bind.
    both_runs Hp p (get data key) h1 h2 Hn HR Hn'.
    + split; [reflexivity | exact Hn'].
    + now apply IH.
    + split; [now apply R_segment | exact Hn'].
Qed.

Lemma record_loop_steady (key value : Parser) :
  steady key -> steady value ->
  forall keys data obj h1 h2,
    next_ref h1 = next_ref h2 ->
    same_outcome R (fst (record_loop key value keys data obj h1))
                   (fst (record_loop key value keys data obj h2))
    /\ next_ref (snd (record_loop key value keys data obj h1))
       = next_ref (snd (record_loop key value keys data obj h2)).
Proof using R_ok R_sort R_segment.
  intros Hkey Hvalue. induction keys as [|k keys IH];
    intros data obj h1 h2 Hn; cbn [record_loop ret].
  - split; [apply R_ok | exact Hn].
  - unfold bind. both_runs_as Hkey key (VStr k) h1 h2 Hn HR Hn' ha hb.
    + split; [reflexivity | exact Hn'].
    + both_runs Hvalue value (get data k) ha hb Hn' HR' Hn''.
      * split; [reflexivity | exact Hn''].
      * match goal with
        | |- context [cannot_convert ?k'] => destruct (cannot_convert k')
        end; [split; [reflexivity | exact Hn''] | now apply IH].
      * split; [now apply R_segment | exact Hn''].
    + split; [now apply R_segment | exact Hn'].
Qed.

Lemma union_loop_steady (ps : list Parser) :
  Forall steady ps ->
  forall data h1 h2,
    next_ref h1 = next_ref h2 ->
    fst (union_loop ps data h1) = fst (union_loop ps data h2)
    /\ next_ref (snd (union_loop ps data h1))
       = next_ref (snd (union_loop ps data h2)).
Proof using R_sort.
  induction 1 as [|p ps Hp _ IH]; intros data h1 h2 Hn;
    cbn [union_loop ret].
  - split; [reflexivity | exact Hn].
  - unfold bind. both_runs Hp p data h1 h2 Hn HR Hn'.
    + split; [reflexivity | exact Hn'].
    + cbn. split; [reflexivity | exact Hn'].
    + cbn [isOk]. now apply IH.
Qed.

Lemma pipe_loop_related pipeline acc :
  R (pipe_loop pipeline acc) (pipe_loop pipeline acc).
Proof using R_ok R_err.
  destruct (pipe_loop pipeline acc); [apply R_ok | apply R_err].
Qed.

Lemma parse_steady (s : Schema) : every N s -> steady (parse s).
Proof using R_ok R_err R_sort R_segment R_oneOf R_lit N_hook.
  induction s as
    [ | message | message | message | message
    | schema message IH
    | props message IH
    | key value message IHkey IHvalue
    | first rest message IHfirst IHrest
    | first rest message IHfirst IHrest
    | values message | values message cell | lit message cell
    | schema IH
    | schema defaultValue message IH
    | schema pipeline IH
    | schema mapper IH
    | schema hook IH ] using Schema_nested_ind;
    intros Hevery data h1 h2 Hn.
  - split; [apply R_ok | exact Hn].
  - simpl. destruct (isString data); (split; [first [apply R_ok | apply R_err] | exact Hn]).
  - simpl. destruct (isNumber data); (split; [first [apply R_ok | apply R_err] | exact Hn]).
  - simpl. destruct (isBoolean data); (split; [first [apply R_ok | apply R_err] | exact Hn]).
  - simpl. destruct (isDate data); simpl.
    + rewrite Hn. split; [apply R_ok | reflexivity].
    + split; [apply R_err | exact Hn].
  - simpl. destruct (isArray data); simpl.
    + apply list_loop_steady; [|exact Hn]. apply IH. apply Hevery.
    + split; [apply R_err | exact Hn].
  - apply every_obj in Hevery. destruct Hevery as [_ Hall].
    simpl. destruct (isPlainObject data); simpl.
    + apply obj_loop_steady; [|exact Hn].
      clear - IH Hall. induction props as [|p props IHprops]; [constructor|].
      inversion IH; inversion Hall; subst.
      constructor; [cbn [snd]; auto | now apply IHprops].
    + split; [apply R_err | exact Hn].
  - destruct Hevery as (_ & Hk & Hv).
    simpl. destruct (isPlainObject data); simpl.
    + apply record_loop_steady; auto.
    + split; [apply R_err | exact Hn].
  - apply every_union in Hevery. destruct Hevery as (_ & Hf & Hall).
    rewrite !union_unfold.
    assert (Hps : Forall steady (map parse (first :: rest))).
    { constructor; [auto|]. clear - IHrest Hall.
      induction rest as [|s rest IHr]; [constructor|].
      inversion IHrest; inversion Hall; subst.
      constructor; [auto | now apply IHr]. }
    generalize (union_loop_steady _ Hps data h1 h2 Hn).
    destruct (union_loop (map parse (first :: rest)) data h1) as [[ex1|[r1|]] h1'],
             (union_loop (map parse (first :: rest)) data h2) as [[ex2|[r2|]] h2'];
      cbn [fst snd]; intros [Heq Hn']; try discriminate.
    + injection Heq as ->. split; [reflexivity | exact Hn'].
    + injection Heq as ->. split; [|exact Hn'].
      destruct r2; [apply R_ok | apply R_err].
    + split; [apply R_err | exact Hn'].
  - apply every_tuple in Hevery. destruct Hevery as (_ & Hf & Hall).
    cbn [parse].
    destruct (negb (isArray data)
              || negb (Nat.eqb (length (elements data)) (length (first :: rest)))).
    + split; [apply R_err | exact Hn].
    + apply (tuple_loop_steady (map parse (first :: rest))); [|exact Hn].
      constructor; [auto|]. clear - IHrest Hall.
      induction rest as [|s rest IHr]; [constructor|].
      inversion IHrest; inversion Hall; subst.
      constructor; [auto | now apply IHr].
  - simpl. destruct (includes values data); (split; [first [apply R_ok | apply R_err] | exact Hn]).
  - simpl. destruct (includes (map PStr values) data).
    + split; [apply R_ok | exact Hn].
    + unfold bind.
      match goal with
      | |- context [nullish_assign ?c ?m ?fb h1] =>
          destruct (nullish_assign_returns c m fb h1) as (m1 & h1' & E1);
          destruct (nullish_assign_returns c m fb h2) as (m2 & h2' & E2);
          generalize (R_oneOf _ _ _ (every_here _ _ Hevery) data fb
                        _ _ _ _ _ _ E1 E2);
          generalize (nullish_assign_next_ref c m fb h1);
          generalize (nullish_assign_next_ref c m fb h2);
          rewrite E1, E2
      end.
      cbn [fst snd ret]. intros F2 F1 HR. split; [exact HR | congruence].
  - simpl.
    match goal with
    | |- context [strict_equals ?d ?v] => destruct (strict_equals d v)
    end.
    + split; [apply R_ok | exact Hn].
    + unfold bind.
      match goal with
      | |- context [nullish_assign ?c ?m ?fb h1] =>
          destruct (nullish_assign_returns c m fb h1) as (m1 & h1' & E1);
          destruct (nullish_assign_returns c m fb h2) as (m2 & h2' & E2);
          generalize (R_lit _ _ _ (every_here _ _ Hevery) data fb
                        _ _ _ _ _ _ E1 E2);
          generalize (nullish_assign_next_ref c m fb h1);
          generalize (nullish_assign_next_ref c m fb h2);
          rewrite E1, E2
      end.
      cbn [fst snd ret]. intros F2 F1 HR. split; [exact HR | congruence].
  - destruct Hevery as [_ Hs]. simpl. destruct (isNil data).
    + split; [apply R_ok | exact Hn].
    + unfold bind. pose proof (IH Hs) as Hp.
      both_runs Hp (parse schema) data h1 h2 Hn HR Hn'.
      * split; [reflexivity | exact Hn'].
      * split; [apply R_ok | exact Hn'].
      * split; [assumption | exact Hn'].
  - destruct Hevery as [_ Hs]. simpl. destruct (isNil data).
    + split; [apply R_ok | exact Hn].
    + now apply IH.
  - destruct Hevery as [_ Hs]. simpl. unfold bind. pose proof (IH Hs) as Hp.
    both_runs Hp (parse schema) data h1 h2 Hn HR Hn'.
    + split; [reflexivity | exact Hn'].
    + split; [apply pipe_loop_related | exact Hn'].
    + split; [assumption | exact Hn'].
  - destruct Hevery as [_ Hs]. simpl. unfold bind. pose proof (IH Hs) as Hp.
    both_runs Hp (parse schema) data h1 h2 Hn HR Hn'.
    + split; [reflexivity | exact Hn'].
    + split; [|exact Hn'].
      match goal with
      | |- context [mapper ?v] => destruct (mapper v)
      end; [apply R_ok | apply R_err].
    + split; [assumption | exact Hn'].
  - generalize (N_hook _ _ (every_here _ _ Hevery) data h1 h2 Hn).
    destruct Hevery as [_ Hs]. simpl. unfold bind.
    destruct (hook data h1) as [[ex1|d1] h1'], (hook data h2) as [[ex2|d2] h2'];
      cbn [fst snd]; intros [Heq Hn']; try discriminate.
    + injection Heq as ->. split; [reflexivity | exact Hn'].
    + injection Heq as ->. now apply IH.
Qed.

End Heap_dependence.

Lemma cast_extends hook :
  is_cast hook -> forall data h, extends h (snd (hook data h)).
Proof.
  intros [-> | [-> | [-> | ->]]] data h;
    unfold tryNum, tryStr, tryBool, tryDate;
    try destruct (cannot_convert data); destruct data; split; cbn; auto.
Qed.

Lemma cast_cells hook :
  is_cast hook -> forall data h, cells (snd (hook data h)) = cells h.
Proof.
  intros [-> | [-> | [-> | ->]]] data h;
    unfold tryNum, tryStr, tryBool, tryDate;
    try destruct (cannot_convert data); destruct data; reflexivity.
Qed.

Lemma cast_steady hook :
  is_cast hook ->
  forall data h1 h2,
    next_ref h1 = next_ref h2 ->
    fst (hook data h1) = fst (hook data h2)
    /\ next_ref (snd (hook data h1)) = next_ref (snd (hook data h2)).
Proof.
  intros [-> | [-> | [-> | ->]]] data h1 h2 Hn;
    unfold tryNum, tryStr, tryBool, tryDate;
    try destruct (cannot_convert data); destruct data; cbn;
    rewrite ?Hn; auto.
Qed.

Lemma same_outcome_eq (o1 o2 : Thrown Parsed) : same_outcome eq o1 o2 -> o1 = o2.
Proof.
  destruct o1, o2; cbn; try contradiction; now intros ->.
Qed.

Lemma extends_refl h : extends h h.
Proof. split; auto. Qed.

Lemma extends_trans a b c : extends a b -> extends b c -> extends a c.
Proof. intros [Hab Hab'] [Hbc Hbc']. split; [lia | auto]. Qed.

Lemma nullish_assign_extends cell message fallback h :
  extends h (snd (nullish_assign cell message fallback h)).
Proof.
  unfold nullish_assign. destruct message; [apply extends_refl|].
  destruct (cells h !! cell) eqn:Hcell; [apply extends_refl|].
  split; [reflexivity|]. intros c m Hc. cbn.
  rewrite lookup_insert_ne; [exact Hc | congruence].
Qed.

(** X12.  Parsing with a schema built from the exported functions never
    hands out a reference twice and never changes or drops a message that a
    [lit] or [oneOf] schema has stored: the heap only grows. *)
Theorem heap_only_grows (s : Schema) (data : Value) (h : Heap) :
  exported s -> extends h (snd (parse s data h)).
Proof.
  intros Hs.
  apply (parse_keeps extends
           (fun s' => match s' with SPre _ hook => is_cast hook | _ => True end));
    auto using extends_refl, nullish_assign_extends.
  - apply extends_trans.
  - intros time h0. split; cbn; auto.
  - intros schema hook Hcast. now apply cast_extends.
Qed.

(** X13.  Among schemas whose pipeline steps and mappers are pure
    functions, as the steps of the model are (a step that keeps a state of
    its own between calls is none), what earlier calls of [parse] left
    behind can change the message of an error and nothing else: from two
    heaps that hand out the same next reference, a schema whose casts are
    those of [as] accepts the same inputs with the same values, throws on
    the same inputs, and rejects the same inputs with errors that agree on
    [actual], [expected], [path] and [value]. *)
Theorem history_changes_only_messages (s : Schema) (data : Value) (h1 h2 : Heap) :
  exported s ->
  next_ref h1 = next_ref h2 ->
  same_outcome same_but_message (fst (parse s data h1)) (fst (parse s data h2)).
Proof.
  intros Hs Hn.
  apply (parse_steady same_but_message
           (fun s' => match s' with SPre _ hook => is_cast hook | _ => True end));
    try assumption.
  - reflexivity.
  - intros e. cbn. auto.
  - intros [v1|e1] [v2|e2]; cbn; auto.
  - intros segment e1 e2. cbn. intros (Ha & He & Hp & Hv).
    repeat split; congruence.
  - intros values message cell _ d fallback h m1 h' h0 m2 h0' _ _. cbn. auto.
  - intros lit message cell _ d fallback h m1 h' h0 m2 h0' _ _. cbn. auto.
  - intros schema hook Hcast. now apply cast_steady.
Qed.

(** X14.  Among schemas whose pipeline steps and mappers are pure
    functions, as the steps of the model are, a schema in which every [lit]
    and [oneOf] was given a message keeps no state in the heap: its result
    does not depend on what earlier calls stored, and it stores nothing
    itself. *)
Theorem messages_given_stateless (s : Schema) (data : Value) (h1 h2 : Heap) :
  exported s ->
  messages_given s ->
  next_ref h1 = next_ref h2 ->
  fst (parse s data h1) = fst (parse s data h2)
  /\ cells (snd (parse s data h1)) = cells h1.
Proof.
  intros Hs Hm Hn.
  pose proof (every_and _ _ _ Hs Hm) as Hboth. cbv beta in Hboth.
  split.
  - apply same_outcome_eq.
    apply (parse_steady eq _ (fun v => eq_refl) (fun e => eq_refl))
      with (6 := Hboth); try assumption.
    + intros [v1|e1] [v2|e2]; intros [=]; subst; auto.
    + intros segment e1 e2 [= ->]. reflexivity.
    + intros values [m|] cell [_ Hgiven] d fallback h m1 h' h0 m2 h0';
        [|easy]. cbn. now intros [= <- _] [= <- _].
    + intros lit [m|] cell [_ Hgiven] d fallback h m1 h' h0 m2 h0';
        [|easy]. cbn. now intros [= <- _] [= <- _].
    + intros schema hook [Hcast _]. now apply cast_steady.
  - refine (parse_keeps (fun h h' => cells h' = cells h) _ _ _ _ _ _ _
              s Hboth data h1); try reflexivity.
    + intros a b c Hab Hbc. congruence.
    + intros values [m|] cell [_ Hgiven] fallback h; [reflexivity | easy].
    + intros lit [m|] cell [_ Hgiven] fallback h; [reflexivity | easy].
    + intros schema hook [Hcast _]. now apply cast_cells.
Qed.

(** *** [extend] *)

Lemma assign_prop target k schema key :
  prop (assign target k schema) key
  = if String.eqb k key then Some schema else prop target key.
Proof.
  induction target as [|[k0 old] target IH]; simpl; [reflexivity|].
  destruct (String.eqb k0 k) eqn:Hk0; simpl.
  - apply String.eqb_eq in Hk0. subst k0.
    now destruct (String.eqb k key).
  - rewrite IH. destruct (String.eqb k0 key) eqn:Hkey; [|reflexivity].
    apply String.eqb_eq in Hkey. subst key.
    now rewrite String.eqb_sym, Hk0.
Qed.

Lemma assign_keys_in target k schema k' :
  In k' (map fst (assign target k schema)) ->
  k' = k \/ In k' (map fst target).
Proof.
  induction target as [|[k0 old] target IH]; simpl.
  - intros [<- | []]. now left.
  - destruct (String.eqb k0 k); simpl.
    + intros [<- | Hin]; auto.
    + intros [<- | Hin]; auto. destruct (IH Hin); auto.
Qed.

Lemma assign_NoDup target k schema :
  List.NoDup (map fst target) -> List.NoDup (map fst (assign target k schema)).
Proof.
  induction target as [|[k0 old] target IH]; simpl; intros Hnd.
  - constructor; [intros [] | constructor].
  - inversion Hnd as [|? ? Hnotin Hnd']; subst.
    destruct (String.eqb k0 k) eqn:Hk0; simpl.
    + now constructor.
    + constructor; [|auto]. intros Hin.
      apply assign_keys_in in Hin. destruct Hin as [-> | Hin]; [|auto].
      now rewrite String.eqb_refl in Hk0.
Qed.

Lemma assign_fresh target k schema :
  ~ In k (map fst target) -> assign target k schema = target ++ [(k, schema)].
Proof.
  induction target as [|[k0 old] target IH]; simpl; intros Hnotin;
    [reflexivity|].
  destruct (String.eqb k0 k) eqn:Hk0.
  - apply String.eqb_eq in Hk0. tauto.
  - rewrite IH; [reflexivity | tauto].
Qed.

Lemma prop_app front back key :
  prop (front ++ back) key
  = match prop front key with
    | Some schema => Some schema
    | None => prop back key
    end.
Proof.
  induction front as [|[k s] front IH]; simpl; [reflexivity|].
  now destruct (String.eqb k key).
Qed.

Lemma assign_each_prop source :
  forall target key,
    prop (fold_left (fun t p => assign t (fst p) (snd p)) source target) key
    = match prop (rev source) key with
      | Some schema => Some schema
      | None => prop target key
      end.
Proof.
  induction source as [|[k s] source IH]; intros target key; simpl;
    [reflexivity|].
  rewrite IH, prop_app, assign_prop. simpl.
  destruct (prop (rev source) key); [reflexivity|].
  now destruct (String.eqb k key).
Qed.

Lemma assign_each_NoDup source :
  forall target,
    List.NoDup (map fst target) ->
    List.NoDup
      (map fst (fold_left (fun t p => assign t (fst p) (snd p)) source target)).
Proof.
  induction source as [|[k s] source IH]; intros target Hnd; simpl;
    [exact Hnd|].
  apply IH. now apply assign_NoDup.
Qed.

Lemma assign_each_fresh source :
  forall target,
    List.NoDup (map fst (target ++ source)) ->
    fold_left (fun t p => assign t (fst p) (snd p)) source target
    = target ++ source.
Proof.
  induction source as [|[k s] source IH]; intros target Hnd; simpl.
  - now rewrite app_nil_r.
  - assert (Hcons : target ++ (k, s) :: source = (target ++ [(k, s)]) ++ source)
      by now rewrite <- app_assoc.
    rewrite Hcons in *. rewrite assign_fresh.
    + now apply IH.
    + rewrite !map_app in Hnd. apply List.NoDup_app_remove_r in Hnd.
      apply List.NoDup_remove_2 in Hnd. simpl in Hnd.
      now rewrite app_nil_r in Hnd.
Qed.

Lemma Object_assign_concat sources :
  forall target,
    Object_assign target sources
    = fold_left (fun t p => assign t (fst p) (snd p)) (concat sources) target.
Proof.
  unfold Object_assign.
  induction sources as [|source sources IH]; intros target; simpl;
    [reflexivity|].
  now rewrite IH, fold_left_app.
Qed.

(** X15.  [extend]: the merged schema declares every key once, and under a
    key it has the schema of the last of the given schemas that declares
    the key. *)
Theorem extend_last_wins (first : Schema) (rest : list Schema)
    (message : option string) :
  List.NoDup (map fst (props_of (extend first rest message)))
  /\ forall key,
       prop (props_of (extend first rest message)) key
       = prop (rev (concat (map props_of (first :: rest)))) key.
Proof.
  unfold extend. cbn [props_of]. rewrite Object_assign_concat. split.
  - apply assign_each_NoDup. constructor.
  - intros key. rewrite assign_each_prop.
    now destruct (prop (rev (concat (map props_of (first :: rest)))) key).
Qed.

(** X16.  [extend] of a single object schema is [obj] of the same
    properties, in the same order, under the new message: the message of the
    schema that is extended is dropped. *)
Theorem extend_single (props : list (string * Schema))
    (old message : option string) :
  List.NoDup (map fst props) ->
  extend (SObj props old) [] message = SObj props message.
Proof.
  intros Hnd. unfold extend. rewrite Object_assign_concat.
  cbn [map props_of concat]. rewrite app_nil_r.
  now rewrite assign_each_fresh.
Qed.

(** *** [obj] over [def] *)

(** X17.  An object schema whose properties all carry a default, on a plain
    object in which each of these keys reads nil ([data[key]] is
    [undefined] or [null], which a key that the input lacks does unless
    [Object.prototype] has a member of that name): the result holds the
    defaults, under the keys in the order of [props]; no property schema is
    run, so the defaults are not validated and the heap is untouched. *)
Theorem obj_of_defaults (props : list (string * Schema))
    (out : list (string * Value)) (message : option string)
    (data : Value) (h : Heap) :
  isPlainObject data = true ->
  Forall (fun p => isNil (get data (fst p)) = true) props ->
  Forall2 (fun p kv =>
             fst kv = fst p
             /\ exists schema msg, snd p = SDef schema (snd kv) msg)
          props out ->
  parse (SObj props message) data h = (Return (Ok (VObj (assign_all [] out))), h).
Proof.
  intros Hplain Hnil Hdef. apply parse_obj_accepts; [exact Hplain|].
  clear Hplain. induction Hdef as [|[key s] [key' d] props out Hp _ IH].
  - constructor.
  - cbn [fst snd] in Hp. destruct Hp as [-> (schema & msg & ->)].
    inversion Hnil as [|? ? Hkey Hnil']; subst. cbn [fst] in Hkey.
    econstructor; [|now apply IH].
    simpl. now rewrite Hkey.
Qed.

End More_facts.

(** *** [as] *)

Section Casts.
Context {host : Host}.


End Casts.

(** *** The steps on numbers and dates *)

Section Step_facts.
Context {host : Host} {calendar : Calendar}.
Local Open Scope Z_scope.

(** X18.  [clamp] then [range] with the same bounds, in a pipeline on
    [num()]: with [lo <= hi] every number is accepted.  [NaN] comes out as
    [NaN]; any other number comes out within the bounds, and unchanged when
    it was within them already. *)
Theorem clamp_then_range (lo hi : Z) (n : number) (message : option string)
    (h : Heap) :
  lo <= hi ->
  exists r,
    parse (SPipe (SNum None)
             [Steps.clamp (Num lo) (Num hi);
              Steps.range (Num lo) (Num hi) message])
          (VNum n) h
    = (Return (Ok (VNum r)), h)
    /\ (n = NaN -> r = NaN)
    /\ (forall z, n = Num z ->
          exists c, r = Num c /\ lo <= c <= hi /\ (lo <= z <= hi -> c = z)).
Proof.
  intros Hle. destruct n as [|z].
  - exists NaN. split; [reflexivity|]. split; [reflexivity | discriminate].
  - exists (Num (Z.min (Z.max z lo) hi)). split; [|split; [discriminate|]].
    + cbn. unfold Steps.range. cbn.
      assert (Hlo : (Z.min (Z.max z lo) hi <? lo) = false) by lia.
      assert (Hhi : (hi <? Z.min (Z.max z lo) hi) = false) by lia.
      now rewrite Hlo, Hhi.
    + intros z' [= <-]. exists (Z.min (Z.max z lo) hi).
      split; [reflexivity | split; lia].
Qed.

(** X19.  [clamp] with its bounds the wrong way round returns the upper
    bound for every number but [NaN], for which it returns [NaN]. *)
Theorem clamp_inverted_bounds (lo hi : Z) (n : number) :
  hi < lo ->
  Steps.clamp (Num lo) (Num hi) (VNum n)
  = Ok (VNum match n with
             | NaN => NaN
             | Num _ => Num hi
             end).
Proof.
  intros Hlt. unfold Steps.clamp. destruct n as [|z]; cbn; [reflexivity|].
  do 3 f_equal. lia.
Qed.


(** X21.  [range(lo, hi)] accepts exactly what [min(lo)] and [max(hi)] both
    accept, and hands back what it was given. *)
Theorem range_is_min_and_max (lo hi : number) (message m1 m2 : option string)
    (data : Value) :
  isOk (Steps.range lo hi message data)
  = isOk (Steps.min lo m1 data) && isOk (Steps.max hi m2 data)
  /\ forall v, Steps.range lo hi message data = Ok v -> v = data.
Proof.
  unfold Steps.range, Steps.min, Steps.max. cbn.
  destruct (number_lt (Steps.numeric data) lo),
           (number_lt hi (Steps.numeric data)); cbn;
    (split; [reflexivity | congruence]).
Qed.

(** X22.  [positive] and [negative] both accept zero, and both accept
    [NaN]: [positive] accepts [NaN] and the numbers [n >= 0] and no other
    number, [negative] accepts [NaN] and the numbers [n <= 0] and no other
    number. *)
Theorem positive_and_negative_accept_zero (message : option string)
    (n : number) :
  (Steps.positive message (VNum n) = Ok (VNum n)
   <-> n = NaN \/ exists z, n = Num z /\ 0 <= z)
  /\ (Steps.negative message (VNum n) = Ok (VNum n)
      <-> n = NaN \/ exists z, n = Num z /\ z <= 0).
Proof.
  unfold Steps.positive, Steps.negative, Steps.min, Steps.max.
  destruct n as [|z]; cbn.
  - split; split; auto.
  - split.
    + destruct (Z.ltb_spec z 0); split.
      * discriminate.
      * intros [[=]|(z' & [= <-] & Hz)]. lia.
      * intros _. right. exists z. split; [reflexivity | lia].
      * reflexivity.
    + destruct (Z.ltb_spec 0 z); split.
      * discriminate.
      * intros [[=]|(z' & [= <-] & Hz)]. lia.
      * intros _. right. exists z. split; [reflexivity | lia].
      * reflexivity.
Qed.

(** X23.  On valid dates [before] and [after] exclude the bound itself and
    [between] includes both of its bounds. *)
Theorem date_steps_bounds (t t' : Z) (message : option string) :
  (exists p, Steps.before (Some t) message = Return p
             /\ forall r x, p (VDate r (Some x)) = Ok (VDate r (Some x))
                            <-> x < t)
  /\ (exists p, Steps.after (Some t) message = Return p
                /\ forall r x, p (VDate r (Some x)) = Ok (VDate r (Some x))
                               <-> t < x)
  /\ (exists p, Steps.between (Some t) (Some t') message = Return p
                /\ forall r x, p (VDate r (Some x)) = Ok (VDate r (Some x))
                               <-> t <= x <= t').
Proof.
  unfold Steps.before, Steps.after, Steps.between. cbn.
  repeat split; destruct message as [m|]; eexists; (split; [reflexivity|]);
    intros r x; cbn.
  all: try (destruct (Z.leb_spec t x); split; intros;
            (reflexivity || lia || discriminate)).
  all: try (destruct (Z.leb_spec x t); split; intros;
            (reflexivity || lia || discriminate)).
  all: destruct (Z.ltb_spec x t), (Z.ltb_spec t' x); cbn; split; intros;
    (reflexivity || lia || discriminate).
Qed.


(** X25.  The invalid date passes every date step that could be built. *)
Theorem invalid_date_passes_date_steps (date date' : option Z)
    (message : option string) (r : nat) (p : Pipe) :
  Steps.before date message = Return p
  \/ Steps.after date message = Return p
  \/ Steps.between date date' message = Return p ->
  p (VDate r None) = Ok (VDate r None).
Proof.
  unfold Steps.before, Steps.after, Steps.between.
  intros [Hp | [Hp | Hp]];
    destruct message as [m|], date as [t|], date' as [t'|];
    cbn in Hp; try discriminate; injection Hp as <-; reflexivity.
Qed.

End Step_facts.
(** ** Worked instances

    The theorems above hold for every host and every heap.  Here they are
    applied to concrete schemas and inputs, on the example host. *)
Import ExampleHost.

(** C1 on [obj({ users: list(obj({ age: num() })) })]: the second user's
    age is a string, and the path names it from the root. *)
Lemma path_accumulation_witness :
  descends
    (SObj [("users", SList (SObj [("age", SNum None)] None) None)] None)
    (VObj [("users", VArr [VObj [("age", VNum (Num 1))];
                           VObj [("age", VStr "x")]])])
    ["users"; "1"; "age"].
Proof.
  exact (proj2 (proj2 (proj2 (proj2 (proj2 (proj2 (proj2 (proj2
           path_accumulation)))))))
           (SObj [("users", SList (SObj [("age", SNum None)] None) None)] None)
           (VObj [("users", VArr [VObj [("age", VNum (Num 1))];
                                  VObj [("age", VStr "x")]])])
           (heap 0)
           {| actual := "string"; expected := "number";
              message := "Expected number, but got string";
              path := ["users"; "1"; "age"]; value := VStr "x" |}
           (heap 0) eq_refl).
Defined.

(** C2 at work: [const s = lit("hello"); s.parse("a"); s.parse("b")].  The
    second call reports the message of the first, which names "a"; the same
    call on a schema that was not used before names "b". *)
Theorem lit_message_depends_on_history :
  exists e1 h1 e2 h2 e h',
    parse (SLit (PStr "hello") None 0) (VStr "a") (heap 0) = (Return (Err e1), h1)
    /\ parse (SLit (PStr "hello") None 0) (VStr "b") h1 = (Return (Err e2), h2)
    /\ parse (SLit (PStr "hello") None 0) (VStr "b") (heap 0) = (Return (Err e), h')
    /\ message e
       = ("Expected " ++ quote ++ "hello" ++ quote ++ ", but got "
            ++ quote ++ "b" ++ quote)%string
    /\ message e2
       = ("Expected " ++ quote ++ "hello" ++ quote ++ ", but got "
            ++ quote ++ "a" ++ quote)%string
    /\ value e2 = value e
    /\ e2 <> e.
Proof.
  eexists _, _, _, _, _, _.
  split; [reflexivity|]. split; [vm_compute; reflexivity|].
  split; [reflexivity|]. split; [reflexivity|]. split; [reflexivity|].
  split; [reflexivity|]. intros Heq. apply (f_equal message) in Heq.
  vm_compute in Heq. discriminate.
Qed.

(** The same defect in [oneOf]:
    [const s = oneOf(["foo"]); s.parse("x"); s.parse("y")]. *)
Lemma oneOf_message_depends_on_history :
  exists e1 h1 e2 h2,
    parse (SOneOf ["foo"] None 0) (VStr "x") (heap 0) = (Return (Err e1), h1)
    /\ parse (SOneOf ["foo"] None 0) (VStr "y") h1 = (Return (Err e2), h2)
    /\ value e2 = VStr "y"
    /\ message e2
       = ("Expected one of [" ++ quote ++ "foo" ++ quote ++ "], but got "
            ++ quote ++ "x" ++ quote)%string.
Proof.
  eexists _, _, _, _.
  split; [reflexivity|]. split; [vm_compute; reflexivity|].
  split; reflexivity.
Qed.






(** C6 on the date object 0 of a heap that holds one object: the result is
    object 1, with the same time value. *)
Lemma date_schema_parse_witness :
  parse (SDate None) (VDate 0 (Some 1640995200000%Z)) (heap 1)
  = (Return (Ok (VDate 1 (Some 1640995200000%Z))), heap 2)
  /\ same_object (VDate 1 (Some 1640995200000%Z))
       (VDate 0 (Some 1640995200000%Z)) = false.
Proof.
  destruct (proj1 (proj2
             (date_schema_parse None (VDate 0 (Some 1640995200000%Z)) (heap 1)))
             0 1640995200000%Z eq_refl) as (Hparse & _ & Hfresh).
  split.
  - exact Hparse.
  - apply (Hfresh (VDate 0 (Some 1640995200000%Z))). simpl. lia.
Defined.



(** The claim C8 as the spec words it fails on a step that returns the empty
    string: [pipe(str(), () => Result.Err("")).parse("x")] delivers the
    default message, not the string the step returned. *)
Lemma pipe_empty_message_counterexample :
  exists e h',
    parse (SStr None) (VStr "x") (heap 0) = (Return (Ok (VStr "x")), heap 0)
    /\ parse (SPipe (SStr None) [fun _ => Err ""]) (VStr "x") (heap 0)
       = (Return (Err e), h')
    /\ expected e = "pipe"
    /\ message e = "Expected pipe, but got string"
    /\ message e <> "".
Proof.
  eexists _, _. split; [reflexivity|]. split; [reflexivity|].
  split; [reflexivity|]. split; [reflexivity|]. discriminate.
Qed.

(** C8, amended, on [pipe(str(), trim-like step, failing step)]. *)
Lemma pipe_parse_witness :
  parse (SPipe (SStr None) [fun _ => Ok (VStr "hello"); fun _ => Err "too short"])
    (VStr "  hello  ") (heap 0)
  = (Return (Err {| actual := "string"; expected := "pipe"; message := "too short";
            path := []; value := VStr "hello" |}), heap 0).
Proof.
  refine (proj2 (pipe_parse (SStr None)
                   [fun _ => Ok (VStr "hello"); fun _ => Err "too short"]
                   (VStr "  hello  ") (heap 0) (VStr "  hello  ") (heap 0) eq_refl)
            [fun _ => Ok (VStr "hello")] (fun _ => Err "too short") []
            (VStr "hello") "too short" eq_refl _ eq_refl).
  econstructor; [reflexivity | constructor].
Defined.



(** C10 on the test's [enum User { Admin, User }]: "Admin" is accepted. *)
Lemma enum_parse_witness :
  parse (_enum (numeric_enum 0 ["Admin"; "User"]) None) (VStr "Admin") (heap 0)
  = (Return (Ok (VStr "Admin")), heap 0).
Proof.
  apply (proj1 (proj2 enum_parse) ["Admin"; "User"] None (heap 0) "Admin").
  now left.
Defined.


(** *** Instances of the further properties *)
Import ExampleCalendar.

(** X1 on [tuple([str(), num()])] and [["a", "b"]]: position 0 passes,
    position 1 fails, and the path of the error is that index. *)
Lemma tuple_parse_witness :
  parse (STuple (SStr None) [SNum None] None) (VArr [VStr "a"; VStr "b"]) (heap 0)
  = (Return (Err {| actual := "string";
                    expected := "number";
                    message := "Expected number, but got string";
                    path := ["1"];
                    value := VStr "b" |}), heap 0).
Proof.
  refine (proj1 (proj2
            (proj2 (tuple_parse (SStr None) [SNum None] None
                      (VArr [VStr "a"; VStr "b"]) (heap 0))
               [VStr "a"; VStr "b"] eq_refl eq_refl))
            [SStr None] (SNum None) [] [VStr "a"] (heap 0)
            (err "number" (VStr "b") None) (heap 0) eq_refl _ eq_refl).
  econstructor; [reflexivity | constructor].
Defined.

(** X2 on [record(str(), num())]: [{ a: 1, b: 2 }] is accepted, and in
    [{ a: 1, b: "x" }] the value under "b" fails, with that key as the path
    of the error. *)
Lemma record_parse_witness :
  parse (SRecord (SStr None) (SNum None) None)
    (VObj [("a", VNum (Num 1)); ("b", VNum (Num 2))]) (heap 0)
  = (Return (Ok (VObj [("a", VNum (Num 1)); ("b", VNum (Num 2))])), heap 0)
  /\ parse (SRecord (SStr None) (SNum None) None)
       (VObj [("a", VNum (Num 1)); ("b", VStr "x")]) (heap 0)
     = (Return (Err {| actual := "string";
                       expected := "number";
                       message := "Expected number, but got string";
                       path := ["b"];
                       value := VStr "x" |}), heap 0).
Proof.
  split.
  - refine (proj1
              (proj2 (record_parse (SStr None) (SNum None) None
                        (VObj [("a", VNum (Num 1)); ("b", VNum (Num 2))]) (heap 0))
                 eq_refl)
              [(VStr "a", VNum (Num 1)); (VStr "b", VNum (Num 2))] (heap 0) _).
    econstructor; [reflexivity | reflexivity | reflexivity|].
    econstructor; [reflexivity | reflexivity | reflexivity | constructor].
  - refine (proj1 (proj2 (proj2
              (proj2 (record_parse (SStr None) (SNum None) None
                        (VObj [("a", VNum (Num 1)); ("b", VStr "x")]) (heap 0))
                 eq_refl)))
              ["a"] "b" [] [(VStr "a", VNum (Num 1))] (heap 0) (VStr "b") (heap 0)
              (err "number" (VStr "x") None) (heap 0) eq_refl _ eq_refl eq_refl).
    econstructor; [reflexivity | reflexivity | reflexivity | constructor].
Defined.

(** X3 on [record(str(), any())] and [{ a: 1, b: "x" }]. *)
Lemma record_of_any_copies_witness :
  parse (SRecord (SStr None) SAny None)
    (VObj [("a", VNum (Num 1)); ("b", VStr "x")]) (heap 0)
  = (Return (Ok (VObj [("a", VNum (Num 1)); ("b", VStr "x")])), heap 0).
Proof.
  apply (record_of_any_copies None None
           [("a", VNum (Num 1)); ("b", VStr "x")] (heap 0)).
  simpl. constructor.
  - intros [Hab | []]. discriminate Hab.
  - constructor; [intros [] | constructor].
Defined.

(** X6 on the error [num()] reports for the string "x". *)
Lemma error_actual_is_type_of_value_witness :
  actual (err "number" (VStr "x") None)
  = getTypeOf (value (err "number" (VStr "x") None)).
Proof.
  exact (error_actual_is_type_of_value (SNum None) (VStr "x") (heap 0)
           (err "number" (VStr "x") None) (heap 0) eq_refl).
Defined.

(** X7 on a step that fails with the empty message: the error carries the
    default message. *)
Lemma error_message_never_empty_witness :
  message (err "pipe" VNull (Some "")) <> "".
Proof.
  exact (error_message_never_empty (SPipe SAny [fun _ => Err ""]) VNull (heap 0)
           (err "pipe" VNull (Some "")) (heap 0) eq_refl).
Defined.

(** X12 on [list(lit("a"))] and [["b"]], a failing call that stores a
    message. *)
Lemma heap_only_grows_witness :
  extends (heap 0)
    (snd (parse (SList (SLit (PStr "a") None 0) None) (VArr [VStr "b"]) (heap 0))).
Proof.
  apply (heap_only_grows (SList (SLit (PStr "a") None 0) None)
           (VArr [VStr "b"]) (heap 0)).
  unfold exported. simpl. auto.
Defined.

(** X13 on [lit("hello")], fresh and after a call that failed on "a": both
    reject "b", with different messages. *)
Lemma history_changes_only_messages_witness :
  same_outcome same_but_message
    (fst (parse (SLit (PStr "hello") None 0) (VStr "b") (heap 0)))
    (fst (parse (SLit (PStr "hello") None 0) (VStr "b")
            (snd (parse (SLit (PStr "hello") None 0) (VStr "a") (heap 0))))).
Proof.
  apply (history_changes_only_messages (SLit (PStr "hello") None 0) (VStr "b")).
  - unfold exported, messages_given. simpl. auto.
  - reflexivity.
Defined.

(** X14 on [lit("hello", "no")], with and without a message stored by
    another schema under the same cell. *)
Lemma messages_given_stateless_witness :
  fst (parse (SLit (PStr "hello") (Some "no") 0) (VStr "b") (heap 0))
  = fst (parse (SLit (PStr "hello") (Some "no") 0) (VStr "b")
           {| next_ref := 0; cells := {[ 0 := "old" ]} |})
  /\ cells (snd (parse (SLit (PStr "hello") (Some "no") 0) (VStr "b") (heap 0)))
     = cells (heap 0).
Proof.
  apply (messages_given_stateless (SLit (PStr "hello") (Some "no") 0) (VStr "b")
           (heap 0) {| next_ref := 0; cells := {[ 0 := "old" ]} |}).
  - unfold exported, messages_given. simpl. auto.
  - unfold exported, messages_given. simpl. auto.
  - reflexivity.
Defined.

(** X16 on [extend([obj({ a: str(), b: num() }, "old")], "new")]. *)
Lemma extend_single_witness :
  extend (SObj [("a", SStr None); ("b", SNum None)] (Some "old")) [] (Some "new")
  = SObj [("a", SStr None); ("b", SNum None)] (Some "new").
Proof.
  apply (extend_single [("a", SStr None); ("b", SNum None)]).
  simpl. constructor.
  - intros [Hab | []]. discriminate Hab.
  - constructor; [intros [] | constructor].
Defined.

(** X17 on [obj({ n: def(num(), 1), s: def(str(), 2) })] and [{ n: null }]:
    the default of "s" is a number, and is returned as it is. *)
Lemma obj_of_defaults_witness :
  parse (SObj [("n", SDef (SNum None) (VNum (Num 1)) None);
               ("s", SDef (SStr None) (VNum (Num 2)) None)] None)
    (VObj [("n", VNull)]) (heap 0)
  = (Return (Ok (VObj [("n", VNum (Num 1)); ("s", VNum (Num 2))])), heap 0).
Proof.
  apply (obj_of_defaults
           [("n", SDef (SNum None) (VNum (Num 1)) None);
            ("s", SDef (SStr None) (VNum (Num 2)) None)]
           [("n", VNum (Num 1)); ("s", VNum (Num 2))] None
           (VObj [("n", VNull)]) (heap 0)).
  - reflexivity.
  - repeat constructor.
  - repeat constructor; simpl; eauto.
Defined.

(** X18 on [pipe(num(), clamp(0, 10), range(0, 10))]: 15 comes out
    within the bounds, 5 comes out as 5. *)
Lemma clamp_then_range_witness :
  (exists c,
     parse (SPipe (SNum None)
              [Steps.clamp (Num 0) (Num 10); Steps.range (Num 0) (Num 10) None])
           (VNum (Num 15)) (heap 0)
     = (Return (Ok (VNum (Num c))), heap 0)
     /\ (0 <= c <= 10)%Z)
  /\ parse (SPipe (SNum None)
              [Steps.clamp (Num 0) (Num 10); Steps.range (Num 0) (Num 10) None])
           (VNum (Num 5)) (heap 0)
     = (Return (Ok (VNum (Num 5))), heap 0).
Proof.
  split.
  - destruct (clamp_then_range 0 10 (Num 15) None (heap 0) ltac:(lia))
      as (r & Hparse & _ & Hnum).
    destruct (Hnum 15%Z eq_refl) as (c & -> & Hc & _).
    exists c. split; [exact Hparse | exact Hc].
  - destruct (clamp_then_range 0 10 (Num 5) None (heap 0) ltac:(lia))
      as (r & Hparse & _ & Hnum).
    destruct (Hnum 5%Z eq_refl) as (c & -> & _ & Hsame).
    rewrite <- (Hsame ltac:(lia)) at 2. exact Hparse.
Defined.

(** X19 on [clamp(10, 0)]: 5 gives 0. *)
Lemma clamp_inverted_bounds_witness :
  Steps.clamp (Num 10) (Num 0) (VNum (Num 5)) = Ok (VNum (Num 0)).
Proof.
  apply (clamp_inverted_bounds 10 0 (Num 5)). lia.
Defined.

(** X25 on [before(new Date(0))]. *)
Lemma invalid_date_passes_date_steps_witness :
  match Steps.before (Some 0%Z) None with
  | Return p => p (VDate 0 None) = Ok (VDate 0 None)
  | Throw _ => False
  end.
Proof.
  exact (invalid_date_passes_date_steps (Some 0%Z) None None 0 _
           (or_introl eq_refl)).
Defined.
(** ** The scenarios of section 8 and of the test file, run on the model *)
Module Scenarios.
Import ExampleHost.

Example str_rejects_number :
  run (SStr None) (VNum (Num 123))
  = Return (Err {| actual := "number"; expected := "string";
           message := "Expected string, but got number";
           path := []; value := VNum (Num 123) |}).
Proof. reflexivity. Qed.

Example list_reports_index :
  run (SList (SStr None) None) (VArr [VStr "a"; VNum (Num 2)])
  = Return (Err {| actual := "number"; expected := "string";
           message := "Expected string, but got number";
           path := ["1"]; value := VNum (Num 2) |}).
Proof. reflexivity. Qed.

Example list_accepts_strings :
  run (SList (SStr None) None) (VArr [VStr "hello"; VStr "world"])
  = Return (Ok (VList [VStr "hello"; VStr "world"])).
Proof. reflexivity. Qed.

Example obj_reports_key :
  run (SObj [("name", SStr None); ("age", SNum None)] None)
      (VObj [("name", VStr "John")])
  = Return (Err {| actual := "undefined"; expected := "number";
           message := "Expected number, but got undefined";
           path := ["age"]; value := VUndefined |}).
Proof. reflexivity. Qed.

Example tuple_reports_index :
  run (STuple (SStr None) [SNum None] None) (VArr [VStr "hello"; VBool true])
  = Return (Err {| actual := "boolean"; expected := "number";
           message := "Expected number, but got boolean";
           path := ["1"]; value := VBool true |}).
Proof. reflexivity. Qed.

Example union_default_message :
  run (SUnion (SStr None) [SNum None] None) (VBool true)
  = Return (Err {| actual := "boolean"; expected := "string | number";
           message := "Expected string | number, but got boolean";
           path := []; value := VBool true |}).
Proof. reflexivity. Qed.

Example record_reports_key :
  run (SRecord (SStr None) (SNum None) None)
      (VObj [("name", VNum (Num 123)); ("age", VStr "30")])
  = Return (Err {| actual := "string"; expected := "number";
           message := "Expected number, but got string";
           path := ["age"]; value := VStr "30" |}).
Proof. reflexivity. Qed.

Example as_bool_accepts_YES :
  match as_ (SBool None) with
  | Return s => run s (VStr "YES") = Return (Ok (VBool true))
  | Throw _ => False
  end.
Proof. reflexivity. Qed.

Example as_num_casts_string :
  match as_ (SNum None) with
  | Return s => run s (VStr "123") = Return (Ok (VNum (Num 123)))
  | Throw _ => False
  end.
Proof. reflexivity. Qed.

Example oneOf_default_message :
  match run (SOneOf ["foo"; "bar"; "baz"] None 0) (VStr "qux") with
  | Return (Err e) =>
      message e
      = ("Expected one of [" ++ quote ++ "foo" ++ quote ++ "," ++ quote ++ "bar"
          ++ quote ++ "," ++ quote ++ "baz" ++ quote ++ "], but got "
          ++ quote ++ "qux" ++ quote)%string
  | _ => False
  end.
Proof. reflexivity. Qed.

Example nested_path_is_root_first :
  match run (SObj [("users", SList (SObj [("age", SNum None)] None) None)] None)
            (VObj [("users", VArr [VObj [("age", VNum (Num 1))];
                                   VObj [("age", VStr "x")]])]) with
  | Return (Err e) => path e = ["users"; "1"; "age"]
  | _ => False
  end.
Proof. reflexivity. Qed.

Example enum_accepts_member_and_name :
  run (_enum (numeric_enum 0 ["Admin"; "User"]) None) (VNum (Num 0))
  = Return (Ok (VNum (Num 0)))
  /\ run (_enum (numeric_enum 0 ["Admin"; "User"]) None) (VStr "Admin")
     = Return (Ok (VStr "Admin"))
  /\ run (_enum (numeric_enum 0 ["Admin"; "User"]) None) (VStr "Superuser")
     = Return (Err {| actual := "string"; expected := "enum";
              message := "Expected enum, but got string";
              path := []; value := VStr "Superuser" |}).
Proof. repeat split. Qed.

Example opt_wraps_and_skips :
  run (SOpt (SStr None)) (VStr "hello") = Return (Ok (VSome (VStr "hello")))
  /\ run (SOpt (SStr None)) VUndefined = Return (Ok VNone)
  /\ run (SOpt (SStr None)) VNull = Return (Ok VNone)
  /\ rejected (run (SOpt (SStr None)) (VNum (Num 123))) = true.
Proof. repeat split. Qed.

Example def_substitutes :
  run (SDef (SNum None) (VNum (Num 0)) None) (VNum (Num 123)) = Return (Ok (VNum (Num 123)))
  /\ run (SDef (SNum None) (VNum (Num 0)) None) VUndefined = Return (Ok (VNum (Num 0))).
Proof. repeat split. Qed.

Example partial_of_the_tests :
  match partial (SObj [("name", SStr None); ("age", SNum None)] None) with
  | Return s =>
      accepted (run s (VObj [("name", VStr "John")])) = true
      /\ accepted (run s (VObj [("age", VNum (Num 30))])) = true
      /\ accepted (run s (VObj [])) = true
      /\ rejected (run s (VObj [("name", VNum (Num 123))])) = true
      /\ rejected (run s (VObj [("age", VStr "30")])) = true
  | Throw _ => False
  end.
Proof. repeat split. Qed.

Example as_date_parses_string :
  match as_ (SDate None) with
  | Return s =>
      run s (VStr "2022-01-01") = Return (Ok (VDate 1 (Some 1640995200000%Z)))
      /\ rejected (run s (VStr "invalid date")) = true
  | Throw _ => False
  end.
Proof. repeat split. Qed.

Example pipe_runs_steps_in_order :
  run (SPipe (SNum None)
         [fun v => match v with
                   | VNum (Num z) => Ok (VNum (Num (z + 1)))
                   | _ => Err "not a number"
                   end;
          fun v => match v with
                   | VNum (Num z) =>
                       if Z.leb z 5 then Ok v else Err "too large"
                   | _ => Err "not a number"
                   end])
      (VNum (Num 5))
  = Return (Err {| actual := "number"; expected := "pipe"; message := "too large";
           path := []; value := VNum (Num 6) |}).
Proof. reflexivity. Qed.

End Scenarios.

